(** * lesspar: the BFGS optimizer with GLMNET-style line search and the
      ridge penalty

    A shallow embedding of [include/glmnet_ridge.h] and
    [include/lesstimate/bfgsOptim.h].

    - A C++ [double] is an IEEE 754 binary64 number: [spec_float] with
      precision 53 and maximal exponent 1024, and the correctly rounded
      operations of [SpecFloat].
    - An [arma::rowvec] is a list of doubles, an [arma::mat] the list of its
      rows.  The checks Armadillo makes (conforming dimensions, indices in
      range) raise an exception; the unchecked [.at()] outside the vector is
      undefined behaviour and is represented by an exception as well.
    - An [int] is a [Z]; the counters of the loops never leave the range of
      the C++ type.
    - The random source, the warnings and the printed lines are the state of
      a small state-and-exception monad.
    - [std::pow], [arma::solve] and [lessSEM::BFGS] are not defined in these
      two headers and are parameters of the development. *)

From Stdlib Require Import ZArith String List Bool Lia.
From Stdlib Require Import SpecFloat.
Import ListNotations.


(** ** Binary64 arithmetic *)

Module f64.

Definition prec : Z := 53.
Definition emax : Z := 1024.

Definition double : Type := spec_float.

Definition add : double -> double -> double := SFadd prec emax.
Definition sub : double -> double -> double := SFsub prec emax.
Definition mul : double -> double -> double := SFmul prec emax.
Definition div : double -> double -> double := SFdiv prec emax.
Definition opp : double -> double := SFopp.
Definition abs : double -> double := SFabs.

Definition eqb : double -> double -> bool := SFeqb.
Definition ltb : double -> double -> bool := SFltb.
Definition leb : double -> double -> bool := SFleb.

(** Conversion of an integer ([int], [unsigned], [uword]) to [double]:
    round to nearest, ties to even. *)
Definition of_Z (z : Z) : double := binary_normalize prec emax z 0 false.

Definition zero : double := S754_zero false.
Definition one : double := Eval cbv in of_Z 1.
Definition two : double := Eval cbv in of_Z 2.
Definition nan : double := S754_nan.
Definition neg_infinity : double := S754_infinity true.

(** [std::isfinite] *)
Definition is_finite (x : double) : bool :=
  match x with
  | S754_zero _ | S754_finite _ _ _ => true
  | S754_infinity _ | S754_nan => false
  end.

(** The literals [.9], [0.25] and [.001]: the doubles nearest to the
    decimal fractions. *)
Definition lit_0_9 : double := Eval cbv in div (of_Z 9) (of_Z 10).
Definition lit_0_25 : double := Eval cbv in div (of_Z 1) (of_Z 4).
Definition lit_0_001 : double := Eval cbv in div (of_Z 1) (of_Z 1000).

End f64.

Abbreviation double := f64.double.

Declare Scope f64_scope.
Delimit Scope f64_scope with f64.
Bind Scope f64_scope with f64.double.
Infix "+" := f64.add : f64_scope.
Infix "-" := f64.sub : f64_scope.
Infix "*" := f64.mul : f64_scope.
Infix "/" := f64.div : f64_scope.
Notation "- x" := (f64.opp x) : f64_scope.
Infix "==" := f64.eqb (at level 70, no associativity) : f64_scope.
Infix "<?" := f64.ltb : f64_scope.
Infix "<=?" := f64.leb : f64_scope.
Notation "x >=? y" := (f64.leb y x)
  (at level 70, no associativity, only parsing) : f64_scope.

(** ** Exceptions *)

Inductive exc (A : Type) : Type :=
| Val (a : A)
| Exn (msg : string).
Arguments Val {A} a.
Arguments Exn {A} msg.

Definition exc_bind {A B : Type} (m : exc A) (k : A -> exc B) : exc B :=
  match m with
  | Val a => k a
  | Exn msg => Exn msg
  end.

Declare Scope exc_scope.
Delimit Scope exc_scope with exc.
Notation "x <- m ;; k" := (exc_bind m (fun x => k))
  (at level 61, m at next level, right associativity) : exc_scope.

(** ** The part of Armadillo the two headers use

    Armadillo is a library of its own; its operations are written here
    after its documentation, with sums running from the first element to
    the last. *)

Module arma.

Definition rowvec : Type := list double.
Definition colvec : Type := list double.
(** A matrix is the list of its rows. *)
Definition mat : Type := list (list double).

Definition n_elem (v : rowvec) : nat := length v.
(** A [Row] has one row whatever its number of elements. *)
Definition n_rows (v : rowvec) : nat := 1.
Definition n_cols (v : rowvec) : nat := length v.

Definition mat_n_rows (m : mat) : nat := length m.
Definition mat_n_cols (m : mat) : nat :=
  match m with
  | [] => 0
  | r :: _ => length r
  end.

(** [rowvec v(n); v.fill(x)] *)
Definition filled (n : nat) (x : double) : rowvec := repeat x n.

Definition trans (v : rowvec) : colvec := v.
Definition trans_col (v : colvec) : rowvec := v.

(** [v.at(p)]: no bounds check in the source. *)
Definition at_ (v : rowvec) (p : nat) : exc double :=
  match nth_error v p with
  | Some x => Val x
  | None => Exn "at(): index out of bounds"
  end.

(** [v(i)]: bounds checked. *)
Definition get (v : rowvec) (i : Z) : exc double :=
  if (i <? 0)%Z then Exn "Mat::operator(): index out of bounds"
  else match nth_error v (Z.to_nat i) with
       | Some x => Val x
       | None => Exn "Mat::operator(): index out of bounds"
       end.

Fixpoint replace_nth (v : rowvec) (n : nat) (x : double) : rowvec :=
  match v, n with
  | [], _ => []
  | _ :: v', O => x :: v'
  | y :: v', S n' => y :: replace_nth v' n' x
  end.

(** [v(i) = x]: bounds checked. *)
Definition set (v : rowvec) (i : Z) (x : double) : exc rowvec :=
  if (i <? 0)%Z then Exn "Mat::operator(): index out of bounds"
  else if (Z.to_nat i <? length v)%nat then Val (replace_nth v (Z.to_nat i) x)
       else Exn "Mat::operator(): index out of bounds".

(** [rowvec v(n)] for an [int] n, then [v.fill(x)]: a negative [int]
    becomes a size no vector can have. *)
Definition filled_int (n : Z) (x : double) : exc rowvec :=
  if (n <? 0)%Z then Exn "Mat::init(): requested size is too large"
  else Val (filled (Z.to_nat n) x).

Fixpoint zip_with (f : double -> double -> double) (a b : list double)
  : list double :=
  match a, b with
  | x :: a', y :: b' => f x y :: zip_with f a' b'
  | _, _ => []
  end.

(** [a + b] *)
Definition plus (a b : rowvec) : exc rowvec :=
  if (length a =? length b)%nat then Val (zip_with f64.add a b)
  else Exn "addition: incompatible matrix dimensions".

(** [k * v] and [v * k] for a scalar [k]: every element is multiplied
    by [k]. *)
Definition times (k : double) (v : rowvec) : rowvec :=
  map (fun x => (x * k)%f64) v.

(** [-v] *)
Definition neg (v : rowvec) : rowvec := map f64.opp v.

(** [arma::abs(v)] *)
Definition abs (v : rowvec) : rowvec := map f64.abs v.

(** [v < k]: the vector of the 0/1 outcomes. *)
Definition lt_scalar (v : rowvec) (k : double) : list bool :=
  map (fun x => (x <? k)%f64) v.

(** [arma::sum] of a 0/1 vector. *)
Definition sum_bool (v : list bool) : nat :=
  List.length (List.filter (fun b => b) v).

(** [arma::sum(v)]: the elements are added from the first to the last,
    starting from 0.0. *)
Definition sum (v : rowvec) : double := fold_left f64.add v f64.zero.

(** The inner product of two vectors of the same length. *)
Definition dot (a b : list double) : double :=
  fold_left f64.add (zip_with f64.mul a b) f64.zero.

(** [r * c] for a row [r] and a column [c]: a 1x1 matrix. *)
Definition row_times_col (r : rowvec) (c : colvec) : exc mat :=
  if (length r =? length c)%nat then Val [[dot r c]]
  else Exn "matrix multiplication: incompatible matrix dimensions".

Fixpoint row_times_mat_acc (r : rowvec) (m : mat) (acc : rowvec) : rowvec :=
  match r, m with
  | x :: r', row :: m' =>
      row_times_mat_acc r' m' (zip_with f64.add acc (map (f64.mul x) row))
  | _, _ => acc
  end.

(** [r * m] for a row [r] and a matrix [m]: a row. *)
Definition row_times_mat (r : rowvec) (m : mat) : exc rowvec :=
  if (length r =? mat_n_rows m)%nat
  then Val (row_times_mat_acc r m (filled (mat_n_cols m) f64.zero))
  else Exn "matrix multiplication: incompatible matrix dimensions".

(** [m * c] for a matrix [m] and a column [c]: a column. *)
Definition mat_times_col (m : mat) (c : colvec) : exc colvec :=
  if (mat_n_cols m =? length c)%nat then Val (map (fun row => dot row c) m)
  else Exn "matrix multiplication: incompatible matrix dimensions".

(** [a + b] for two matrices. *)
Definition mat_plus (a b : mat) : exc mat :=
  if ((mat_n_rows a =? mat_n_rows b) && (mat_n_cols a =? mat_n_cols b))%nat
  then Val (map (fun rr => zip_with f64.add (fst rr) (snd rr)) (combine a b))
  else Exn "addition: incompatible matrix dimensions".

(** [k * m], [m + k] and [m - k] for a scalar [k]. *)
Definition mat_times (k : double) (m : mat) : mat :=
  map (map (fun x => (x * k)%f64)) m.
Definition mat_plus_scalar (m : mat) (k : double) : mat :=
  map (map (fun x => (x + k)%f64)) m.
Definition mat_minus_scalar (m : mat) (k : double) : mat :=
  map (map (fun x => (x - k)%f64)) m.

(** [m(i, j)]: bounds checked. *)
Definition mat_get (m : mat) (i j : nat) : exc double :=
  match nth_error m i with
  | Some row =>
      match nth_error row j with
      | Some x => Val x
      | None => Exn "Mat::operator(): index out of bounds"
      end
  | None => Exn "Mat::operator(): index out of bounds"
  end.

Fixpoint diag_rows (m : mat) (i : nat) : mat :=
  match m with
  | [] => []
  | row :: m' =>
      (firstn (length row)
         (repeat f64.zero i ++ firstn 1 (skipn i row)
            ++ repeat f64.zero (length row - i - 1)))
        :: diag_rows m' (S i)
  end.

(** [D = eye(m.n_rows, m.n_cols); D.fill(0.0); D.diag() = m.diag()] *)
Definition diag_part (m : mat) : mat := diag_rows m 0.

(** [arma::max(v)]: starts from minus infinity and keeps an element that
    compares greater; an empty vector is refused. *)
Definition max (v : colvec) : exc double :=
  match v with
  | [] => Exn "max(): object has no elements"
  | _ =>
      Val (fold_left (fun m x => if (m <? x)%f64 then x else m) v
             f64.neg_infinity)
  end.

(** [arma::is_finite(v)] *)
Definition is_finite (v : rowvec) : bool := forallb f64.is_finite v.

End arma.

Abbreviation rowvec := arma.rowvec.
Abbreviation mat := arma.mat.

(** Modelled from the spec: [stringVector] of [common_headers.h], the
    sequence of the parameter labels. *)
Definition stringVector : Type := list string.

(** Modelled from the spec: [numericVector] of [common_headers.h], the
    values of a numeric vector of the host with their names, and its
    conversions from and to a row vector. *)
Record numericVector : Type := {
  values : rowvec;
  names : stringVector
}.

Definition toArmaVector (v : numericVector) : rowvec := values v.
Definition toNumericVector (v : rowvec) : numericVector :=
  {| values := v; names := [] |}.
Definition set_names (v : numericVector) (l : stringVector) : numericVector :=
  {| values := values v; names := l |}.

(** ** The host: random source, warnings, printed output, errors

    [unif], [warn], [error] and [print] are declared in [common_headers.h],
    which is not among the two headers. *)

(** What a run leaves behind, in the order it happens: warnings, which are
    not fatal, and printed text. *)
Inductive event : Type :=
| Warning (msg : string)
| Printed (msg : string)
| PrintedFit (iteration : Z) (fit : double) (parameters : rowvec).

(** The random source is the sequence of its future draws and a cursor
    into it. *)
Record world : Type := {
  draws : nat -> double;
  cursor : nat;
  events : list event
}.

Inductive outcome (A : Type) : Type :=
| Returns (a : A) (w : world)
| Throws (msg : string) (w : world).
Arguments Returns {A} a w.
Arguments Throws {A} msg w.

Definition M (A : Type) : Type := world -> outcome A.

Definition ret {A : Type} (a : A) : M A := fun w => Returns a w.

Definition bind {A B : Type} (m : M A) (k : A -> M B) : M B :=
  fun w =>
    match m w with
    | Returns a w' => k a w'
    | Throws msg w' => Throws msg w'
    end.

Declare Scope M_scope.
Delimit Scope M_scope with M.
Notation "x <- m ;; k" := (bind m (fun x => k))
  (at level 61, m at next level, right associativity) : M_scope.
Notation "m ;;; k" := (bind m (fun _ => k))
  (at level 61, right associativity) : M_scope.

(** A computation that can only return or throw runs in any world. *)
Definition lift {A : Type} (m : exc A) : M A :=
  fun w =>
    match m with
    | Val a => Returns a w
    | Exn msg => Throws msg w
    end.

(** The end of a printed line. *)
Definition newline : string := String (Ascii.ascii_of_nat 10) EmptyString.

Definition emit (e : event) : M unit :=
  fun w =>
    Returns tt {| draws := draws w; cursor := cursor w;
                  events := events w ++ [e] |}.

(** Modelled from the spec: [warn(msg)] reports a condition that is not
    fatal; the run goes on. *)
Definition warn (msg : string) : M unit := emit (Warning msg).

(** Modelled from the spec: [error(msg)] aborts the call with an error. *)
Definition error {A : Type} (msg : string) : M A := fun w => Throws msg w.

(** Modelled from the spec: [unif(n, lo, hi)] takes the next [n] draws of
    the uniform random source. *)
Definition unif (n : nat) (lo hi : double) : M numericVector :=
  fun w =>
    Returns (toNumericVector (map (draws w) (seq (cursor w) n)))
      {| draws := draws w; cursor := cursor w + n; events := events w |}.

(** [try { ... } catch (...) { error(msg); }] *)
Definition try_catch_error {A : Type} (body : exc A) (msg : string) : M A :=
  match body with
  | Val a => ret a
  | Exn _ => error msg
  end.

(** How an iteration of a [for] loop ends: at the end of its body or at a
    [continue], or at a [break]. *)
Inductive flow : Type := Continue | Break.

(** ** glmnet_ridge.h *)

(** Modelled from the spec: the tuning parameters
    [tuningParametersEnetGlmnet] of [enet.h], three arrays with one entry
    per parameter, as [penaltyRidgeGlmnet] reads them. *)
Record tuningParametersEnetGlmnet : Type := {
  alpha : rowvec;
  lambda : rowvec;
  weights : rowvec
}.

(** Modelled from the spec: the interface [smoothPenalty<T>] of
    [smoothPenalty.h], the value and the gradient of a smooth penalty for
    tuning parameters of type [T]; the methods of an implementation can
    throw. *)
Class smoothPenalty (T : Type) : Type := {
  getValue : rowvec -> stringVector -> T -> exc double;
  getGradients : rowvec -> stringVector -> T -> exc rowvec
}.

(** Modelled from the spec: the interface [model] of [model.h], the fit
    and the gradients of the objective.  A non-finite value is how a model
    reports that it cannot be evaluated at a point. *)
Module model.
Record t : Type := {
  fit : rowvec -> stringVector -> double;
  gradients : rowvec -> stringVector -> rowvec
}.
End model.

Section Ridge.

(** [std::pow] *)
Variable pow : double -> double -> double.

Local Open Scope exc_scope.

(** [arma::sum(tuningParameters.alpha) == tuningParameters.alpha.n_elem] *)
Definition ridge_not_used (tuningParameters : tuningParametersEnetGlmnet)
  : bool :=
  (arma.sum (alpha tuningParameters)
   == f64.of_Z (Z.of_nat (arma.n_elem (alpha tuningParameters))))%f64.

(** The loop of [getValue]: [todo] iterations are left, [p] is the
    counter.  The counter is an [unsigned int] in the source and counts
    without wrapping for vectors of fewer than 2^32 elements, which the
    embedding is about. *)
Fixpoint getValue_loop (parameterValues : rowvec)
  (tuningParameters : tuningParametersEnetGlmnet)
  (todo p : nat) (penalty : double) : exc double :=
  match todo with
  | O => Val penalty
  | S todo' =>
      a <- arma.at_ (alpha tuningParameters) p ;;
      l <- arma.at_ (lambda tuningParameters) p ;;
      w <- arma.at_ (weights tuningParameters) p ;;
      x <- arma.at_ parameterValues p ;;
      let lambda_i := ((f64.one - a) * l * w)%f64 in
      getValue_loop parameterValues tuningParameters todo' (S p)
        (penalty + lambda_i * pow x f64.two)%f64
  end.

Definition penaltyRidgeGlmnet_getValue (parameterValues : rowvec)
  (parameterLabels : stringVector)
  (tuningParameters : tuningParametersEnetGlmnet) : exc double :=
  if ridge_not_used tuningParameters then Val f64.zero
  else
    let penalty := f64.zero in
    getValue_loop parameterValues tuningParameters
      (arma.n_elem parameterValues) 0 penalty.

(** The loop of [getGradients]. *)
Fixpoint getGradients_loop (parameterValues : rowvec)
  (tuningParameters : tuningParametersEnetGlmnet)
  (todo p : nat) (gradients : rowvec) : exc rowvec :=
  match todo with
  | O => Val gradients
  | S todo' =>
      a <- arma.at_ (alpha tuningParameters) p ;;
      l <- arma.at_ (lambda tuningParameters) p ;;
      w <- arma.at_ (weights tuningParameters) p ;;
      x <- arma.at_ parameterValues p ;;
      let lambda_i := ((f64.one - a) * l * w)%f64 in
      getGradients_loop parameterValues tuningParameters todo' (S p)
        (arma.replace_nth gradients p (lambda_i * f64.two * x)%f64)
  end.

Definition penaltyRidgeGlmnet_getGradients (parameterValues : rowvec)
  (parameterLabels : stringVector)
  (tuningParameters : tuningParametersEnetGlmnet) : exc rowvec :=
  let gradients := arma.filled (arma.n_elem parameterValues) f64.zero in
  if ridge_not_used tuningParameters then Val gradients
  else
    getGradients_loop parameterValues tuningParameters
      (arma.n_elem parameterValues) 0 gradients.

#[export] Instance penaltyRidgeGlmnet
  : smoothPenalty tuningParametersEnetGlmnet := {
  getValue := penaltyRidgeGlmnet_getValue;
  getGradients := penaltyRidgeGlmnet_getGradients
}.

End Ridge.

(** ** lesstimate/bfgsOptim.h *)

Inductive convergenceCriteriaBFGS : Type :=
| GLMNET_
| fitChange_
| gradients_.

Definition convergenceCriteriaBFGS_txt : list string :=
  ["GLMNET_"; "fitChange_"; "gradients_"]%string.

Module controlBFGS.
Record t : Type := {
  initialHessian : mat;
  stepSize : double;
  sigma : double;
  gamma : double;
  maxIterOut : Z;
  maxIterIn : Z;
  maxIterLine : Z;
  breakOuter : double;
  breakInner : double;
  convergenceCriterion : convergenceCriteriaBFGS;
  verbose : Z
}.
End controlBFGS.

(** Modelled from the spec: the result record [fitResults] of
    [fitResults.h], with the fields [bfgsOptim] fills. *)
Module fitResults.
Record t : Type := {
  convergence : bool;
  fit : double;
  fits : rowvec;
  parameterValues : rowvec;
  Hessian : mat
}.
End fitResults.

(** The variables of [bfgsLineSearch] that live across the iterations of
    its loop. *)
Module lineSearch.
Record state : Type := {
  currentStepSize : double;
  parameters_k : rowvec;
  gradients_k : rowvec;
  converged : bool
}.
End lineSearch.

(** The variables of [bfgsOptim] that live across the iterations of its
    loop. *)
Module outer.
Record state : Type := {
  parameters_k : rowvec;
  parameters_kMinus1 : rowvec;
  direction : rowvec;
  fit_k : double;
  fit_kMinus1 : double;
  penalizedFit_k : double;
  penalizedFit_kMinus1 : double;
  fits : rowvec;
  gradients_k : rowvec;
  gradients_kMinus1 : rowvec;
  Hessian_k : mat;
  Hessian_kMinus1 : mat;
  breakOuter : bool
}.
End outer.

Section BfgsOptim.

(** [std::pow] *)
Variable pow : double -> double -> double.
(** [arma::solve(A, b)] *)
Variable solve : mat -> arma.colvec -> exc arma.colvec.
(** [lessSEM::BFGS] of [bfgs.h] *)
Variable BFGS :
  rowvec -> rowvec -> mat -> rowvec -> rowvec -> bool -> double -> bool ->
  exc mat.

(** [T] is the type of the tuning parameters. *)
Context {T : Type}.

Section LineSearch.

Variable model_ : model.t.
Variable smoothPenalty_ : smoothPenalty T.
Variable parameters_kMinus1 : rowvec.
Variable parameterLabels : stringVector.
Variable direction : rowvec.
Variable fit_kMinus1 : double.
Variable gradients_kMinus1 : rowvec.
Variable Hessian_kMinus1 : mat.
Variable tuningParameters : T.
Variable stepSize : double.
Variable sigma : double.
Variable gamma : double.
Variable maxIterLine : Z.

Definition pen_0 : double := f64.zero.
Definition f_0 : double := (fit_kMinus1 + pen_0)%f64.
Definition pen_d : double := f64.zero.

(** The right-hand side of the line search criterion without its factor
    [sigma * currentStepSize]. *)
Definition compareTo : exc mat :=
  (gd <- arma.row_times_col gradients_kMinus1 (arma.trans direction) ;;
   dH <- arma.row_times_mat direction Hessian_kMinus1 ;;
   dHd <- arma.row_times_col dH (arma.trans direction) ;;
   s <- arma.mat_plus gd (arma.mat_times gamma dHd) ;;
   Val (arma.mat_minus_scalar (arma.mat_plus_scalar s pen_d) pen_0))%exc.

(** One iteration of the line search loop. *)
Definition lineSearch_body (iteration : Z) (st : lineSearch.state)
  : exc (lineSearch.state * flow) :=
  (let currentStepSize := pow stepSize (f64.of_Z iteration) in
   parameters_k <-
     arma.plus parameters_kMinus1 (arma.times currentStepSize direction) ;;
   penalty <- getValue parameters_k parameterLabels tuningParameters ;;
   let fit_k := (model.fit model_ parameters_k parameterLabels + penalty)%f64 in
   if negb (f64.is_finite fit_k) then
     Val ({| lineSearch.currentStepSize := currentStepSize;
             lineSearch.parameters_k := parameters_k;
             lineSearch.gradients_k := lineSearch.gradients_k st;
             lineSearch.converged := lineSearch.converged st |}, Continue)
   else
     let p_k := f64.zero in
     let f_k := (fit_k + p_k)%f64 in
     compareTo <- compareTo ;;
     compareTo00 <- arma.mat_get compareTo 0 0 ;;
     let converged :=
       (f_k - f_0 <=? sigma * currentStepSize * compareTo00)%f64 in
     if converged then
       let gradients_k := model.gradients model_ parameters_k parameterLabels in
       let st' := {| lineSearch.currentStepSize := currentStepSize;
                     lineSearch.parameters_k := parameters_k;
                     lineSearch.gradients_k := gradients_k;
                     lineSearch.converged := converged |} in
       if negb (arma.is_finite gradients_k) then Val (st', Continue)
       else Val (st', Break)
     else
       Val ({| lineSearch.currentStepSize := currentStepSize;
               lineSearch.parameters_k := parameters_k;
               lineSearch.gradients_k := lineSearch.gradients_k st;
               lineSearch.converged := converged |}, Continue))%exc.

(** [for (int iteration = ...; iteration < maxIterLine; iteration++)] with
    [todo] iterations left. *)
Fixpoint lineSearch_loop (todo : nat) (iteration : Z) (st : lineSearch.state)
  : exc lineSearch.state :=
  match todo with
  | O => Val st
  | S todo' =>
      (r <- lineSearch_body iteration st ;;
       match r with
       | (st', Break) => Val st'
       | (st', Continue) => lineSearch_loop todo' (iteration + 1) st'
       end)%exc
  end.

(** [bfgsLineSearch]: the vectors filled with NaN, the step size chosen
    before the loop (clamped, or redrawn with probability 0.25), the loop,
    and the warning when the flag [converged] is not set.  [verbose] is not
    used. *)
Definition bfgsLineSearch (verbose : Z) : M rowvec :=
  (let gradients_k :=
     arma.filled (arma.n_rows gradients_kMinus1) f64.nan in
   let parameters_k :=
     arma.filled (arma.n_rows gradients_kMinus1) f64.nan in
   let currentStepSize :=
     if (stepSize >=? f64.one)%f64 then f64.lit_0_9 else stepSize in
   randomNumber <- unif 1 f64.zero f64.one ;;
   r0 <- lift (arma.at_ (values randomNumber) 0) ;;
   currentStepSize <-
     (if (r0 <? f64.lit_0_25)%f64 then
        tmp <- unif 1 f64.zero f64.one ;;
        lift (arma.at_ (values tmp) 0)
      else ret currentStepSize) ;;
   let converged := false in
   st <- lift (lineSearch_loop (Z.to_nat maxIterLine) 0
                 {| lineSearch.currentStepSize := currentStepSize;
                    lineSearch.parameters_k := parameters_k;
                    lineSearch.gradients_k := gradients_k;
                    lineSearch.converged := converged |}) ;;
   (if negb (lineSearch.converged st)
    then warn "Line search did not converge."
    else ret tt) ;;;
   ret (lineSearch.parameters_k st))%M.

End LineSearch.

(** The gradients of the smooth part: model and smooth penalty. *)
Definition smooth_gradients (model_ : model.t)
  (smoothPenalty_ : smoothPenalty T) (parameters : rowvec)
  (parameterLabels : stringVector) (tuningParameters : T)
  : exc rowvec :=
  (g <- getGradients parameters parameterLabels tuningParameters ;;
   arma.plus (model.gradients model_ parameters parameterLabels) g)%exc.

(** The fit of the smooth part: model and smooth penalty. *)
Definition smooth_fit (model_ : model.t) (smoothPenalty_ : smoothPenalty T)
  (parameters : rowvec) (parameterLabels : stringVector) (tuningParameters : T)
  : exc double :=
  (p <- getValue parameters parameterLabels tuningParameters ;;
   Val (model.fit model_ parameters parameterLabels + p)%f64)%exc.

Section Outer.

Variable model_ : model.t.
Variable parameterLabels : stringVector.
Variable smoothPenalty_ : smoothPenalty T.
Variable tuningParameters : T.
Variable control_ : controlBFGS.t.

(** The three convergence checks at the end of an outer iteration. *)
Definition check_convergence (outer_iteration : Z) (direction : rowvec)
  (fits : rowvec) (gradients_k : rowvec) (Hessian_k : mat) : M bool :=
  match controlBFGS.convergenceCriterion control_ with
  | GLMNET_ =>
      let HessDiag := arma.diag_part Hessian_k in
      try_catch_error
        (v <- arma.mat_times_col HessDiag
                (map (fun x => pow x f64.two) (arma.trans direction)) ;;
         m <- arma.max v ;;
         Val (m <? controlBFGS.breakOuter control_)%f64)%exc
        "Error while computing convergence criterion"
  | fitChange_ =>
      try_catch_error
        (a <- arma.get fits (outer_iteration + 1) ;;
         b <- arma.get fits outer_iteration ;;
         Val (f64.abs (a - b) <? controlBFGS.breakOuter control_)%f64)%exc
        "Error while computing convergence criterion"
  | gradients_ =>
      try_catch_error
        (let subGradients := gradients_k in
         Val (arma.sum_bool
                (arma.lt_scalar (arma.abs subGradients)
                   (controlBFGS.breakOuter control_))
              =? arma.n_elem subGradients)%nat)
        "Error while computing convergence criterion"
  end.

(** One outer iteration. *)
Definition outer_body (outer_iteration : Z) (st : outer.state)
  : M (outer.state * flow) :=
  (gradients_kMinus1 <-
     lift (smooth_gradients model_ smoothPenalty_ (outer.parameters_kMinus1 st)
             parameterLabels tuningParameters) ;;
   x <- lift (solve (outer.Hessian_kMinus1 st)
                (arma.trans gradients_kMinus1)) ;;
   let direction := arma.neg (arma.trans_col x) in
   parameters_k <-
     bfgsLineSearch model_ smoothPenalty_ (outer.parameters_kMinus1 st)
       parameterLabels direction (outer.fit_kMinus1 st) gradients_kMinus1
       (outer.Hessian_kMinus1 st) tuningParameters
       (controlBFGS.stepSize control_) (controlBFGS.sigma control_)
       (controlBFGS.gamma control_) (controlBFGS.maxIterLine control_)
       (controlBFGS.verbose control_) ;;
   gradients_k <-
     lift (smooth_gradients model_ smoothPenalty_ parameters_k
             parameterLabels tuningParameters) ;;
   fit_k <-
     lift (smooth_fit model_ smoothPenalty_ parameters_k
             parameterLabels tuningParameters) ;;
   let penalizedFit_k := fit_k in
   fits <- lift (arma.set (outer.fits st) (outer_iteration + 1)
                   penalizedFit_k) ;;
   (if ((controlBFGS.verbose control_ >? 0)
        && (Z.rem outer_iteration (controlBFGS.verbose control_) =? 0))%Z
    then emit (PrintedFit (outer_iteration + 1) penalizedFit_k parameters_k)
    else ret tt) ;;;
   Hessian_k <-
     lift (BFGS (outer.parameters_kMinus1 st) gradients_kMinus1
             (outer.Hessian_kMinus1 st) parameters_k gradients_k
             true f64.lit_0_001 (controlBFGS.verbose control_ =? -99)%Z) ;;
   breakOuter <-
     check_convergence outer_iteration direction fits gradients_k Hessian_k ;;
   if breakOuter then
     ret ({| outer.parameters_k := parameters_k;
             outer.parameters_kMinus1 := outer.parameters_kMinus1 st;
             outer.direction := direction;
             outer.fit_k := fit_k;
             outer.fit_kMinus1 := outer.fit_kMinus1 st;
             outer.penalizedFit_k := penalizedFit_k;
             outer.penalizedFit_kMinus1 := outer.penalizedFit_kMinus1 st;
             outer.fits := fits;
             outer.gradients_k := gradients_k;
             outer.gradients_kMinus1 := gradients_kMinus1;
             outer.Hessian_k := Hessian_k;
             outer.Hessian_kMinus1 := outer.Hessian_kMinus1 st;
             outer.breakOuter := breakOuter |}, Break)
   else
     ret ({| outer.parameters_k := parameters_k;
             outer.parameters_kMinus1 := parameters_k;
             outer.direction := direction;
             outer.fit_k := fit_k;
             outer.fit_kMinus1 := fit_k;
             outer.penalizedFit_k := penalizedFit_k;
             outer.penalizedFit_kMinus1 := penalizedFit_k;
             outer.fits := fits;
             outer.gradients_k := gradients_k;
             outer.gradients_kMinus1 := gradients_k;
             outer.Hessian_k := Hessian_k;
             outer.Hessian_kMinus1 := Hessian_k;
             outer.breakOuter := breakOuter |}, Continue))%M.

(** [for (int outer_iteration = ...; outer_iteration < control_.maxIterOut;
    outer_iteration++)] with [todo] iterations left. *)
Fixpoint outer_loop (todo : nat) (outer_iteration : Z) (st : outer.state)
  : M outer.state :=
  match todo with
  | O => ret st
  | S todo' =>
      (r <- outer_body outer_iteration st ;;
       match r with
       | (st', Break) => ret st'
       | (st', Continue) => outer_loop todo' (outer_iteration + 1) st'
       end)%M
  end.

End Outer.

(** [NA_REAL] is a NaN. *)
Definition NA_REAL : double := f64.nan.

(** The statements of [bfgsOptim] before its loop: the fit, the gradients
    and the Hessian approximation at the starting values, and the vector of
    the fits with its first entry.  The vector [direction] is allocated
    here and assigned in the loop before it is read. *)
Definition outer_init (model_ : model.t) (startingValuesRcpp : numericVector)
  (smoothPenalty_ : smoothPenalty T) (tuningParameters : T)
  (control_ : controlBFGS.t) : M outer.state :=
  ((if (controlBFGS.verbose control_ =? 0)%Z then ret tt
    else emit (Printed ("Optimizing with bfgs." ++ newline))) ;;;
   let startingValues := toArmaVector startingValuesRcpp in
   let parameterLabels := names startingValuesRcpp in
   let parameters_k := startingValues in
   let parameters_kMinus1 := startingValues in
   let direction := arma.filled (arma.n_elem startingValues) f64.zero in
   fit_k <- lift (smooth_fit model_ smoothPenalty_ parameters_k
                    parameterLabels tuningParameters) ;;
   fit_kMinus1 <- lift (smooth_fit model_ smoothPenalty_ parameters_kMinus1
                          parameterLabels tuningParameters) ;;
   let penalizedFit_k := fit_k in
   let penalizedFit_kMinus1 := fit_kMinus1 in
   fits <- lift (arma.filled_int (controlBFGS.maxIterOut control_ + 1)
                   NA_REAL) ;;
   fits <- lift (arma.set fits 0 penalizedFit_kMinus1) ;;
   gradients_k <- lift (smooth_gradients model_ smoothPenalty_ parameters_k
                          parameterLabels tuningParameters) ;;
   gradients_kMinus1 <-
     lift (smooth_gradients model_ smoothPenalty_ parameters_kMinus1
             parameterLabels tuningParameters) ;;
   let Hessian_k := controlBFGS.initialHessian control_ in
   let Hessian_kMinus1 := controlBFGS.initialHessian control_ in
   let breakOuter := false in
   ret {| outer.parameters_k := parameters_k;
          outer.parameters_kMinus1 := parameters_kMinus1;
          outer.direction := direction;
          outer.fit_k := fit_k;
          outer.fit_kMinus1 := fit_kMinus1;
          outer.penalizedFit_k := penalizedFit_k;
          outer.penalizedFit_kMinus1 := penalizedFit_kMinus1;
          outer.fits := fits;
          outer.gradients_k := gradients_k;
          outer.gradients_kMinus1 := gradients_kMinus1;
          outer.Hessian_k := Hessian_k;
          outer.Hessian_kMinus1 := Hessian_kMinus1;
          outer.breakOuter := breakOuter |})%M.

(** [Rcpp::checkUserInterrupt] is compiled in under [USE_R] only and is not
    part of this embedding. *)
Definition bfgsOptim (model_ : model.t) (startingValuesRcpp : numericVector)
  (smoothPenalty_ : smoothPenalty T) (tuningParameters : T)
  (control_ : controlBFGS.t) : M fitResults.t :=
  (st0 <- outer_init model_ startingValuesRcpp smoothPenalty_
            tuningParameters control_ ;;
   st <- outer_loop model_ (names startingValuesRcpp) smoothPenalty_
           tuningParameters control_
           (Z.to_nat (controlBFGS.maxIterOut control_)) 0 st0 ;;
   (if negb (outer.breakOuter st)
    then warn "Outer iterations did not converge"
    else ret tt) ;;;
   ret {| fitResults.convergence := outer.breakOuter st;
          fitResults.fit := outer.penalizedFit_k st;
          fitResults.fits := outer.fits st;
          fitResults.parameterValues := outer.parameters_k st;
          fitResults.Hessian := outer.Hessian_k st |})%M.

(** The second interface: starting values and labels given apart. *)
Definition bfgsOptim_rowvec (model_ : model.t) (startingValues : rowvec)
  (parameterLabels : stringVector) (smoothPenalty_ : smoothPenalty T)
  (tuningParameters : T) (control_ : controlBFGS.t) : M fitResults.t :=
  let startingValuesNumVec :=
    set_names (toNumericVector startingValues) parameterLabels in
  bfgsOptim model_ startingValuesNumVec smoothPenalty_ tuningParameters
    control_.

End BfgsOptim.

(** ** The vocabulary of the specification *)

(** The outcome of a computation without the world it ends in. *)
Definition result_of {A : Type} (o : outcome A) : exc A :=
  match o with
  | Returns a _ => Val a
  | Throws msg _ => Exn msg
  end.

Definition events_of {A : Type} (o : outcome A) : list event :=
  match o with
  | Returns _ w => events w
  | Throws _ w => events w
  end.

(** A matrix with [r] rows of [c] elements each. *)
Definition has_size (m : mat) (r c : nat) : bool :=
  (length m =? r)%nat && forallb (fun row => (length row =? c)%nat) m.

Definition not_converged_warning : event :=
  Warning "Line search did not converge.".

(** The world [w] after one more event. *)
Definition with_event (w : world) (e : event) : world :=
  {| draws := draws w; cursor := cursor w; events := events w ++ [e] |}.

(** Two doubles with the same value: equal, or two zeros, whose signs no
    comparison sees. *)
Definition same_value (x y : double) : Prop :=
  x = y \/ (exists s s', x = S754_zero s /\ y = S754_zero s').

Section RidgeSpec.

Variable pow : double -> double -> double.

(** [lambda_i = (1 - alpha[i]) * lambda[i] * weight[i]] *)
Definition spec_lambda_i (a l w : double) : double :=
  ((f64.one - a) * l * w)%f64.

(** The terms [lambda_i * params[i]^2], parameter by parameter. *)
Fixpoint spec_ridge_terms (params a l w : list double) : list double :=
  match params, a, l, w with
  | x :: params', a0 :: a', l0 :: l', w0 :: w' =>
      (spec_lambda_i a0 l0 w0 * pow x f64.two)%f64
        :: spec_ridge_terms params' a' l' w'
  | _, _, _, _ => []
  end.

(** The sum over i of [lambda_i * params[i]^2], from the first parameter
    on. *)
Definition spec_ridge_value (params : rowvec)
  (tp : tuningParametersEnetGlmnet) : double :=
  fold_left f64.add
    (spec_ridge_terms params (alpha tp) (lambda tp) (weights tp)) f64.zero.

(** The vector of the [2 * lambda_i * params[i]]. *)
Fixpoint spec_ridge_gradient_terms (params a l w : list double) : list double :=
  match params, a, l, w with
  | x :: params', a0 :: a', l0 :: l', w0 :: w' =>
      (f64.two * spec_lambda_i a0 l0 w0 * x)%f64
        :: spec_ridge_gradient_terms params' a' l' w'
  | _, _, _, _ => []
  end.

Definition spec_ridge_gradient (params : rowvec)
  (tp : tuningParametersEnetGlmnet) : rowvec :=
  spec_ridge_gradient_terms params (alpha tp) (lambda tp) (weights tp).

End RidgeSpec.

Section LineSearchSpec.

Variable pow : double -> double -> double.
Context {T : Type}.
Variable model_ : model.t.
Variable smoothPenalty_ : smoothPenalty T.
Variable parameters_kMinus1 : rowvec.
Variable parameterLabels : stringVector.
Variable direction : rowvec.
Variable fit_kMinus1 : double.
Variable gradients_kMinus1 : rowvec.
Variable Hessian_kMinus1 : mat.
Variable tuningParameters : T.
Variable stepSize : double.
Variable sigma : double.
Variable gamma : double.

(** [stepSize ^ iteration] *)
Definition spec_stepLength (iteration : Z) : double :=
  pow stepSize (f64.of_Z iteration).

(** [parameters_kMinus1 + stepLength * direction] *)
Definition spec_candidate (iteration : Z) : exc rowvec :=
  arma.plus parameters_kMinus1
    (arma.times (spec_stepLength iteration) direction).

(** [gradient_kMinus1 . direction] *)
Definition spec_gd : double := arma.dot gradients_kMinus1 direction.

(** [direction^T * Hessian_kMinus1 * direction] *)
Definition spec_dHd : double :=
  arma.dot
    (arma.row_times_mat_acc direction Hessian_kMinus1
       (arma.filled (arma.mat_n_cols Hessian_kMinus1) f64.zero))
    direction.

(** [f_k - f_0 <= sigma * stepLength *
     (gradient_kMinus1 . direction
      + gamma * direction^T * Hessian_kMinus1 * direction)] *)
Definition spec_sufficient_decrease (iteration : Z) (f_k : double) : bool :=
  (f_k - fit_kMinus1
   <=? sigma * spec_stepLength iteration * (spec_gd + gamma * spec_dHd))%f64.

(** The dimensions the line search needs: one direction and one previous
    gradient per parameter, a square Hessian of that size. *)
Definition conforming : Prop :=
  length direction = length parameters_kMinus1
  /\ length gradients_kMinus1 = length direction
  /\ has_size Hessian_kMinus1 (length direction) (length direction) = true.

(** The smooth penalty has a value at every point with one coordinate per
    parameter. *)
Definition penalty_defined : Prop :=
  forall p : rowvec,
    length p = length parameters_kMinus1 ->
    exists v : double, getValue p parameterLabels tuningParameters = Val v.

(** The state the line search loop starts from. *)
Definition initial_state (s0 : double) : lineSearch.state :=
  {| lineSearch.currentStepSize := s0;
     lineSearch.parameters_k :=
       arma.filled (arma.n_rows gradients_kMinus1) f64.nan;
     lineSearch.gradients_k :=
       arma.filled (arma.n_rows gradients_kMinus1) f64.nan;
     lineSearch.converged := false |}.

End LineSearchSpec.

Section OuterSpec.

Variable pow : double -> double -> double.
Variable solve : mat -> arma.colvec -> exc arma.colvec.
Variable BFGS :
  rowvec -> rowvec -> mat -> rowvec -> rowvec -> bool -> double -> bool ->
  exc mat.
Context {T : Type}.
Variable model_ : model.t.
Variable parameterLabels : stringVector.
Variable smoothPenalty_ : smoothPenalty T.
Variable tuningParameters : T.
Variable control_ : controlBFGS.t.

(** Every component of [|gradient_k|] is below [breakOuter]. *)
Definition spec_gradients_below (gradients_k : rowvec) : bool :=
  forallb (fun g => (f64.abs g <? controlBFGS.breakOuter control_)%f64)
    gradients_k.

(** The state and the world in which outer iteration [n] starts, when the
    loop started from [st0] in [w0] gets that far: iterations 0 to [n - 1]
    have returned without a [break]. *)
Fixpoint iteration_start (st0 : outer.state) (w0 : world) (n : nat)
  : option (outer.state * world) :=
  match n with
  | O => Some (st0, w0)
  | S n' =>
      match iteration_start st0 w0 n' with
      | Some (st, w) =>
          match outer_body pow solve BFGS model_ parameterLabels
                  smoothPenalty_ tuningParameters control_ (Z.of_nat n') st w
          with
          | Returns (st', Continue) w' => Some (st', w')
          | _ => None
          end
      | None => None
      end
  end.

End OuterSpec.

(** ** Concrete inputs

    A stand-in for [std::pow] on the exponents 0 to 3, a one-parameter
    model, and stand-ins for [arma::solve] and [lessSEM::BFGS] on 1x1
    matrices: enough to run the definitions above. *)

Definition pow_small (x y : double) : double :=
  if (y == f64.zero)%f64 then f64.one
  else if (y == f64.one)%f64 then x
  else if (y == f64.two)%f64 then (x * x)%f64
  else if (y == f64.of_Z 3)%f64 then (x * x * x)%f64
  else f64.nan.

Definition half : double := Eval cbv in (f64.one / f64.two)%f64.
Definition quarter : double := Eval cbv in (f64.one / f64.of_Z 4)%f64.
Definition eighth : double := Eval cbv in (f64.one / f64.of_Z 8)%f64.
(** The largest double below 1.0: 1 - 2^-53. *)
Definition below_one : double := Eval cbv in SFpred f64.prec f64.emax f64.one.

(** f(x) = 4 x^2 - x, with gradient 8 x - 1. *)
Definition steep_model : model.t := {|
  model.fit := fun p _ =>
    match p with
    | [x] => (f64.of_Z 4 * x * x - x)%f64
    | _ => f64.nan
    end;
  model.gradients := fun p _ =>
    match p with
    | [x] => [(f64.of_Z 8 * x - f64.one)%f64]
    | _ => map (fun _ => f64.nan) p
    end
|}.

(** f(x) = x^2, with gradient 2 x. *)
Definition square_model : model.t := {|
  model.fit := fun p _ =>
    match p with
    | [x] => (x * x)%f64
    | _ => f64.nan
    end;
  model.gradients := fun p _ =>
    match p with
    | [x] => [(f64.two * x)%f64]
    | _ => map (fun _ => f64.nan) p
    end
|}.

(** f(x) = -x where x <= 1/2 and NaN elsewhere; its gradient is NaN at 1/2. *)
Definition partial_model : model.t := {|
  model.fit := fun p _ =>
    match p with
    | [x] => if (x <=? half)%f64 then (- x)%f64 else f64.nan
    | _ => f64.nan
    end;
  model.gradients := fun p _ =>
    match p with
    | [x] => if (x <? half)%f64 then [(- f64.one)%f64] else [f64.nan]
    | _ => map (fun _ => f64.nan) p
    end
|}.

(** Ridge switched off for one parameter: alpha = 1. *)
Definition ridge_off : tuningParametersEnetGlmnet :=
  {| alpha := [f64.one]; lambda := [f64.one]; weights := [f64.one] |}.

Definition solve_1x1 (A : mat) (b : arma.colvec) : exc arma.colvec :=
  match A, b with
  | [[a]], [x] => Val [(x / a)%f64]
  | _, _ => Exn "solve(): solution not found"
  end.

(** Keeps the previous Hessian approximation. *)
Definition BFGS_keep (parameters_kMinus1 gradients_kMinus1 : rowvec)
  (Hessian_kMinus1 : mat) (parameters_k gradients_k : rowvec)
  (cautious : bool) (hessianEps : double) (debug : bool) : exc mat :=
  Val Hessian_kMinus1.

(** A random source that always draws [x]. *)
Definition constant_source (x : double) : world :=
  {| draws := fun _ => x; cursor := 0; events := [] |}.

(** f(x, y) = x^2 + y^2, with gradient (2 x, 2 y). *)
Definition bowl_model : model.t := {|
  model.fit := fun p _ =>
    match p with
    | [x; y] => (x * x + y * y)%f64
    | _ => f64.nan
    end;
  model.gradients := fun p _ =>
    match p with
    | [x; y] => [(f64.two * x)%f64; (f64.two * y)%f64]
    | _ => map (fun _ => f64.nan) p
    end
|}.

(** A line search for [steep_model] from 0 in the direction 1, with the
    previous fit 0, the previous gradient -1, the Hessian approximation
    (1), [stepSize = 0.5] and [gamma = 0]: the candidates are 1, 0.5, 0.25,
    ... with the fits 3, 0.5, 0, ... *)
Definition steep_search (sigma : double) (maxIterLine : Z) (w : world)
  : outcome rowvec :=
  bfgsLineSearch pow_small steep_model (penaltyRidgeGlmnet pow_small)
    [f64.zero] [] [f64.one] f64.zero [(- f64.one)%f64] [[f64.one]] ridge_off
    half sigma f64.zero maxIterLine 0 w.

(** The same line search for [partial_model], with [sigma = 0.25]: the fit
    is NaN at the candidate 1, and the gradient is NaN at the candidate
    0.5. *)
Definition partial_search (maxIterLine : Z) (w : world) : outcome rowvec :=
  bfgsLineSearch pow_small partial_model (penaltyRidgeGlmnet pow_small)
    [f64.zero] [] [f64.one] f64.zero [(- f64.one)%f64] [[f64.one]] ridge_off
    half quarter f64.zero maxIterLine 0 w.

(** A line search for [bowl_model], two parameters, whose loop is not
    entered: [maxIterLine = 0]. *)
Definition bowl_search_without_iterations (w : world) : outcome rowvec :=
  bfgsLineSearch pow_small bowl_model (penaltyRidgeGlmnet pow_small)
    [f64.one; f64.one] [] [(- f64.one)%f64; (- f64.one)%f64] f64.two
    [f64.two; f64.two] [[f64.two; f64.zero]; [f64.zero; f64.two]]
    {| alpha := [f64.one; f64.one]; lambda := [f64.one; f64.one];
       weights := [f64.one; f64.one] |}
    half quarter f64.zero 0 0 w.

(** 0.01 and 1e-6 *)
Definition one_hundredth : double := Eval cbv in (f64.one / f64.of_Z 100)%f64.
Definition one_millionth : double :=
  Eval cbv in (f64.one / f64.of_Z 1000000)%f64.

(** The scenario of the specification: [f(x) = x^2] from [x0 = 10], ridge
    switched off, [initialHessian = (2)], [stepSize = 0.5], [sigma = 0.01],
    [maxIterOut = 50], the criterion [gradients_], [breakOuter = 1e-6]. *)
Definition square_control : controlBFGS.t := {|
  controlBFGS.initialHessian := [[f64.two]];
  controlBFGS.stepSize := half;
  controlBFGS.sigma := one_hundredth;
  controlBFGS.gamma := f64.zero;
  controlBFGS.maxIterOut := 50;
  controlBFGS.maxIterIn := 50;
  controlBFGS.maxIterLine := 50;
  controlBFGS.breakOuter := one_millionth;
  controlBFGS.breakInner := one_millionth;
  controlBFGS.convergenceCriterion := gradients_;
  controlBFGS.verbose := 0
|}.

Definition square_start : numericVector :=
  {| values := [f64.of_Z 10]; names := ["x"%string] |}.

Definition square_optim (w : world) : outcome fitResults.t :=
  bfgsOptim pow_small solve_1x1 BFGS_keep square_model square_start
    (penaltyRidgeGlmnet pow_small) ridge_off square_control w.

(** * Properties

    ** Binary64 arithmetic *)

Section Binary64Facts.
Local Open Scope Z_scope.

Lemma iter_pos_eq (A : Type) (f : A -> A) (n : positive) (x : A) :
  iter_pos f n x = Pos.iter f x n.
Proof.
  revert x; induction n as [n IH | n IH |]; intros x; simpl.
  - rewrite !IH, !Pos.iter_swap. reflexivity.
  - rewrite !IH. reflexivity.
  - reflexivity.
Qed.

Lemma Zpos_iter_xO (a n : positive) :
  Zpos (Pos.iter xO a n) = Zpos a * 2 ^ Zpos n.
Proof.
  induction n as [| n IH] using Pos.peano_ind.
  - simpl. lia.
  - rewrite Pos.iter_succ, Pos2Z.inj_succ, Z.pow_succ_r by lia.
    rewrite Pos2Z.inj_xO, IH. lia.
Qed.

Lemma shr_exact (n a : positive) :
  iter_pos shr_1 n
    {| shr_m := Zpos a * 2 ^ Zpos n; shr_r := false; shr_s := false |}
  = {| shr_m := Zpos a; shr_r := false; shr_s := false |}.
Proof.
  rewrite iter_pos_eq.
  induction n as [| n IH] using Pos.peano_ind.
  - replace (Zpos a * 2 ^ 1) with (Zpos a~0) by lia. reflexivity.
  - rewrite Pos.iter_succ_r.
    replace (Zpos a * 2 ^ Zpos (Pos.succ n)) with (Zpos (Pos.iter xO a n)~0).
    + simpl. rewrite Zpos_iter_xO. exact IH.
    + rewrite Pos2Z.inj_xO, Zpos_iter_xO, Pos2Z.inj_succ, Z.pow_succ_r by lia.
      lia.
Qed.

Lemma digits2_bounds (p : positive) :
  2 ^ (Zpos (digits2_pos p) - 1) <= Zpos p < 2 ^ Zpos (digits2_pos p).
Proof.
  induction p as [p IH | p IH |]; simpl digits2_pos.
  - rewrite Pos2Z.inj_succ.
    replace (Z.succ (Zpos (digits2_pos p)) - 1)
      with (Z.succ (Zpos (digits2_pos p) - 1)) by lia.
    rewrite !Z.pow_succ_r by lia. lia.
  - rewrite Pos2Z.inj_succ.
    replace (Z.succ (Zpos (digits2_pos p)) - 1)
      with (Z.succ (Zpos (digits2_pos p) - 1)) by lia.
    rewrite !Z.pow_succ_r by lia. lia.
  - simpl. lia.
Qed.

Lemma digits2_unique (p : positive) (d : Z) :
  2 ^ (d - 1) <= Zpos p < 2 ^ d -> Zpos (digits2_pos p) = d.
Proof.
  intros [Hlo Hhi].
  destruct (digits2_bounds p) as [Blo Bhi].
  set (D := Zpos (digits2_pos p)) in *.
  destruct (Z.lt_trichotomy D d) as [Hlt | [Heq | Hgt]]; [| exact Heq |].
  - assert (2 ^ D <= 2 ^ (d - 1)) by (apply Z.pow_le_mono_r; lia). lia.
  - assert (0 <= d).
    { destruct (Z.le_gt_cases 0 d) as [|Hneg]; [assumption|].
      rewrite (Z.pow_neg_r 2 d) in Hhi by lia. lia. }
    assert (2 ^ d <= 2 ^ (D - 1)) by (apply Z.pow_le_mono_r; lia). lia.
Qed.

Lemma digits2_shift (m p : positive) (t : Z) :
  0 <= t -> Zpos m = Zpos p * 2 ^ t ->
  Zpos (digits2_pos m) = Zpos (digits2_pos p) + t.
Proof.
  intros Ht Hm. apply digits2_unique.
  destruct (digits2_bounds p) as [Blo Bhi].
  rewrite Hm.
  replace (Zpos (digits2_pos p) + t - 1) with (Zpos (digits2_pos p) - 1 + t)
    by lia.
  rewrite !Z.pow_add_r by lia.
  assert (0 < 2 ^ t) by (apply Z.pow_pos_nonneg; lia).
  split; nia.
Qed.

Lemma fexp_eq (x : Z) : -1021 <= x -> fexp f64.prec f64.emax x = x - 53.
Proof. intros H. unfold fexp, emin, f64.prec, f64.emax. lia. Qed.

Lemma shr_fexp_canonical (m : positive) (e : Z) :
  digits2_pos m = 53%positive -> -1074 <= e ->
  shr_fexp f64.prec f64.emax (Zpos m) e loc_Exact
  = ({| shr_m := Zpos m; shr_r := false; shr_s := false |}, e).
Proof.
  intros Hd He. unfold shr_fexp.
  replace (fexp f64.prec f64.emax (Zdigits2 (Zpos m) + e) - e) with 0.
  - reflexivity.
  - unfold Zdigits2. rewrite Hd, fexp_eq by lia. lia.
Qed.

(** A mantissa of 53 bits with an exponent in range is left as it is. *)
Lemma round_canonical (s : bool) (m : positive) (e : Z) :
  digits2_pos m = 53%positive -> -1074 <= e <= 971 ->
  binary_round_aux f64.prec f64.emax s (Zpos m) e loc_Exact
  = S754_finite s m e.
Proof.
  intros Hd He. unfold binary_round_aux.
  rewrite shr_fexp_canonical by (assumption || lia).
  cbn [shr_m loc_of_shr_record round_nearest_even].
  rewrite shr_fexp_canonical by (assumption || lia).
  cbn [shr_m].
  replace (e <=? f64.emax - f64.prec) with true
    by (symmetry; apply Z.leb_le; unfold f64.emax, f64.prec; lia).
  reflexivity.
Qed.

(** Rounding [p * 2^t] given at exponent [-t], when [p] has at most 53
    bits: the result is [p] normalised to 53 bits, whatever [t]. *)
Lemma binary_round_scaled (s : bool) (m p : positive) (t : Z) :
  0 <= t <= 1021 -> Zpos m = Zpos p * 2 ^ t -> Zpos (digits2_pos p) <= 53 ->
  binary_round f64.prec f64.emax s m (- t)
  = S754_finite s (Z.to_pos (Zpos p * 2 ^ (53 - Zpos (digits2_pos p))))
      (Zpos (digits2_pos p) - 53).
Proof.
  intros Ht Hm Hd.
  set (d := Zpos (digits2_pos p)) in *.
  assert (Hd1 : 1 <= d) by (unfold d; lia).
  set (M := Z.to_pos (Zpos p * 2 ^ (53 - d))).
  assert (HM : Zpos M = Zpos p * 2 ^ (53 - d)).
  { unfold M. rewrite Z2Pos.id; [reflexivity|].
    apply Z.mul_pos_pos; [lia | apply Z.pow_pos_nonneg; lia]. }
  assert (HdM : digits2_pos M = 53%positive).
  { apply Pos2Z.inj. rewrite (digits2_shift M p (53 - d)) by (lia || exact HM).
    fold d. lia. }
  assert (Hdm : Zpos (digits2_pos m) = d + t)
    by (apply digits2_shift; [lia | exact Hm]).
  unfold binary_round, shl_align.
  rewrite Hdm, fexp_eq by lia.
  replace (d + t + - t - 53 - - t) with (d - 53 + t) by lia.
  destruct (d - 53 + t) as [| q | q] eqn:Hk.
  - (* the mantissa has 53 bits already *)
    assert (M = m) as <-.
    { apply Pos2Z.inj. rewrite HM, Hm. f_equal. f_equal. lia. }
    replace (- t) with (d - 53) by lia.
    apply round_canonical; [exact HdM | lia].
  - (* more than 53 bits: the trailing zeros are shifted out *)
    assert (E : shr_fexp f64.prec f64.emax (Zpos m) (- t) loc_Exact
                = ({| shr_m := Zpos M; shr_r := false; shr_s := false |},
                   d - 53)).
    { unfold shr_fexp, Zdigits2. rewrite Hdm, fexp_eq by lia.
      replace (d + t + - t - 53 - - t) with (Zpos q) by lia.
      unfold shr, shr_record_of_loc.
      replace (Zpos m) with (Zpos M * 2 ^ Zpos q).
      2:{ rewrite HM, Hm, <- Z.mul_assoc, <- Z.pow_add_r by lia.
          f_equal. f_equal. lia. }
      rewrite shr_exact. f_equal. lia. }
    unfold binary_round_aux. rewrite E.
    cbn [shr_m loc_of_shr_record round_nearest_even].
    rewrite shr_fexp_canonical by (exact HdM || lia).
    cbn [shr_m].
    replace (d - 53 <=? f64.emax - f64.prec) with true
      by (symmetry; apply Z.leb_le; unfold f64.emax, f64.prec; lia).
    reflexivity.
  - (* fewer than 53 bits: the mantissa is shifted to the left *)
    assert (Pos.iter xO m q = M) as ->.
    { apply Pos2Z.inj. rewrite Zpos_iter_xO, HM, Hm.
      rewrite <- Z.mul_assoc, <- Z.pow_add_r by lia.
      f_equal. f_equal. lia. }
    replace (d + t + - t - 53) with (d - 53) by lia.
    apply round_canonical; [exact HdM | lia].
Qed.

Lemma of_Z_pos (p : positive) :
  Zpos (digits2_pos p) <= 53 ->
  f64.of_Z (Zpos p)
  = S754_finite false (Z.to_pos (Zpos p * 2 ^ (53 - Zpos (digits2_pos p))))
      (Zpos (digits2_pos p) - 53).
Proof.
  intros Hd. unfold f64.of_Z, binary_normalize.
  apply (binary_round_scaled false p p 0); [lia | lia | exact Hd].
Qed.

Lemma digits2_le_53 (p : positive) :
  Zpos p < 2 ^ 53 -> Zpos (digits2_pos p) <= 53.
Proof.
  intros H. destruct (digits2_bounds p) as [Blo _].
  destruct (Z.le_gt_cases (Zpos (digits2_pos p)) 53) as [|Hgt]; [assumption|].
  assert (2 ^ 53 <= 2 ^ (Zpos (digits2_pos p) - 1))
    by (apply Z.pow_le_mono_r; lia).
  lia.
Qed.

(** Adding 1.0 to an integer below 2^53 is exact. *)
Lemma add_of_Z_one (k : Z) :
  0 <= k < 2 ^ 53 -> (f64.of_Z k + f64.one)%f64 = f64.of_Z (k + 1).
Proof.
  intros [Hk0 Hk].
  destruct k as [| p | p]; [reflexivity | | lia].
  destruct (Z.eq_dec (Zpos p + 1) (2 ^ 53)) as [Htop | Hnot].
  { assert (p = Z.to_pos (2 ^ 53 - 1)) as -> by lia. vm_compute. reflexivity. }
  assert (Hd : Zpos (digits2_pos p) <= 53) by (apply digits2_le_53; lia).
  assert (Hd' : Zpos (digits2_pos (p + 1)%positive) <= 53)
    by (apply digits2_le_53; lia).
  rewrite of_Z_pos by exact Hd.
  set (d := Zpos (digits2_pos p)) in *.
  assert (Hd1 : 1 <= d) by (unfold d; lia).
  set (M := Z.to_pos (Zpos p * 2 ^ (53 - d))).
  assert (HM : Zpos M = Zpos p * 2 ^ (53 - d)).
  { unfold M. rewrite Z2Pos.id; [reflexivity|].
    apply Z.mul_pos_pos; [lia | apply Z.pow_pos_nonneg; lia]. }
  change (Zpos p + 1) with (Zpos (p + 1)%positive).
  rewrite (of_Z_pos (p + 1)) by exact Hd'.
  rewrite <- (binary_round_scaled false (Pos.iter xO (p + 1)%positive 52)
                (p + 1)%positive 52)
    by (lia || apply Zpos_iter_xO || exact Hd').
  unfold f64.add, f64.one, SFadd.
  replace (Z.min (d - 53) (-52)) with (-52) by lia.
  assert (Hl : fst (shl_align M (d - 53) (-52)) = Pos.iter xO p 52).
  { unfold shl_align.
    destruct (-52 - (d - 53)) as [| q | q] eqn:Hq; cbn [fst].
    - apply Pos2Z.inj. rewrite HM, Zpos_iter_xO. f_equal. f_equal. lia.
    - lia.
    - apply Pos2Z.inj. rewrite !Zpos_iter_xO, HM.
      rewrite <- Z.mul_assoc, <- Z.pow_add_r by lia. f_equal. f_equal. lia. }
  rewrite Hl.
  change (fst (shl_align 4503599627370496 (-52) (-52)))
    with (Pos.iter xO 1%positive 52).
  unfold cond_Zopp.
  replace (Zpos (Pos.iter xO p 52) + Zpos (Pos.iter xO 1%positive 52))
    with (Zpos (Pos.iter xO (p + 1)%positive 52)).
  - reflexivity.
  - rewrite !Zpos_iter_xO. lia.
Qed.

Lemma sum_ones_from (n : nat) (k : Z) :
  0 <= k -> k + Z.of_nat n <= 2 ^ 53 ->
  fold_left f64.add (repeat f64.one n) (f64.of_Z k)
  = f64.of_Z (k + Z.of_nat n).
Proof.
  revert k; induction n as [| n IH]; intros k Hk Hn.
  - simpl. f_equal. lia.
  - cbn [repeat fold_left]. rewrite add_of_Z_one by lia.
    rewrite IH by lia. f_equal. lia.
Qed.

(** The sum of [n] ones is [n], up to 2^53. *)
Lemma sum_ones (n : nat) :
  Z.of_nat n <= 2 ^ 53 ->
  arma.sum (repeat f64.one n) = f64.of_Z (Z.of_nat n).
Proof.
  intros Hn. unfold arma.sum.
  change f64.zero with (f64.of_Z 0).
  rewrite sum_ones_from by lia. reflexivity.
Qed.

Lemma compare_refl_finite (x : double) :
  f64.is_finite x = true -> (x == x)%f64 = true.
Proof.
  destruct x as [s | s | | s m e]; cbn; try discriminate; intros _.
  - reflexivity.
  - unfold f64.eqb, SFeqb, SFcompare.
    rewrite Z.compare_refl, Pos.compare_cont_refl.
    destruct s; reflexivity.
Qed.

Lemma of_Z_finite (k : Z) :
  0 <= k <= 2 ^ 53 -> f64.is_finite (f64.of_Z k) = true.
Proof.
  intros [H0 H1].
  destruct k as [| p | p]; [reflexivity | | lia].
  destruct (Z.eq_dec (Zpos p) (2 ^ 53)) as [-> | Hne]; [reflexivity|].
  rewrite of_Z_pos by (apply digits2_le_53; lia). reflexivity.
Qed.

(** Multiplication does not depend on the order of its operands. *)
Lemma mul_comm (x y : double) : (x * y)%f64 = (y * x)%f64.
Proof.
  destruct x as [sx | sx | | sx mx ex], y as [sy | sy | | sy my ey];
    cbn; try reflexivity;
    rewrite ?(xorb_comm sx sy), ?(Pos.mul_comm mx my), ?(Z.add_comm ex ey);
    reflexivity.
Qed.

Lemma same_value_refl (x : double) : same_value x x.
Proof. left; reflexivity. Qed.

Lemma add_zero_same (x : double) : same_value (x + f64.zero)%f64 x.
Proof.
  destruct x as [[|] | [|] | | s m e]; cbn;
    try (left; reflexivity); right; eauto.
Qed.

Lemma sub_zero_same (x : double) : same_value (x - f64.zero)%f64 x.
Proof.
  destruct x as [[|] | [|] | | s m e]; cbn;
    try (left; reflexivity); right; eauto.
Qed.

Lemma same_value_trans (x y z : double) :
  same_value x y -> same_value y z -> same_value x z.
Proof.
  intros H1 H2.
  destruct H1 as [-> | (s & s' & -> & ->)]; [exact H2|].
  destruct H2 as [<- | (t & t' & _ & ->)]; right; eauto.
Qed.

Lemma sub_same (a a' b b' : double) :
  same_value a a' -> same_value b b' -> same_value (a - b)%f64 (a' - b')%f64.
Proof.
  intros [-> | (s & s' & -> & ->)] [-> | (t & t' & -> & ->)].
  - left; reflexivity.
  - destruct a' as [[|] | [|] | | sa ma ea], t, t'; cbn;
      try (left; reflexivity); right; eauto.
  - destruct b' as [[|] | [|] | | sb mb eb], s, s'; cbn;
      try (left; reflexivity); right; eauto.
  - destruct s, s', t, t'; cbn; right; eauto.
Qed.

Lemma mul_same (x c c' : double) :
  same_value c c' -> same_value (x * c)%f64 (x * c')%f64.
Proof.
  intros [-> | (s & s' & -> & ->)]; [left; reflexivity|].
  destruct x as [sx | sx | | sx mx ex]; cbn;
    try (left; reflexivity); right; eauto.
Qed.

Lemma leb_same (a a' b b' : double) :
  same_value a a' -> same_value b b' -> (a <=? b)%f64 = (a' <=? b')%f64.
Proof.
  intros [-> | (s & s' & -> & ->)] [-> | (t & t' & -> & ->)].
  - reflexivity.
  - destruct a' as [sa | sa | | sa ma ea]; reflexivity.
  - destruct b' as [sb | sb | | sb mb eb]; reflexivity.
  - reflexivity.
Qed.

(** A zero times two finite factors is a zero. *)
Lemma zero_mul_finite (s : bool) (x y : double) :
  f64.is_finite x = true -> f64.is_finite y = true ->
  exists s', (S754_zero s * x * y)%f64 = S754_zero s'.
Proof.
  destruct x as [sx | sx | | sx mx ex], y as [sy | sy | | sy my ey];
    cbn; try discriminate; intros _ _; eauto.
Qed.

End Binary64Facts.

(** ** The ridge penalty *)

Section ListFacts.

Context {A : Type}.

Lemma skipn_nth_error (l : list A) (p : nat) (x : A) :
  nth_error l p = Some x -> skipn p l = x :: skipn (S p) l.
Proof.
  revert p; induction l as [| y l IH]; intros [| p] H; try discriminate.
  - injection H as ->. reflexivity.
  - apply (IH p H).
Qed.

Lemma nth_error_in_range (l : list A) (p : nat) :
  p < length l -> exists x, nth_error l p = Some x.
Proof.
  intros H. destruct (nth_error l p) as [x |] eqn:E; [eauto|].
  apply nth_error_None in E. lia.
Qed.

Lemma Forall_eq_repeat (x : A) (l : list A) :
  Forall (fun a => a = x) l -> l = repeat x (length l).
Proof.
  induction 1 as [| a l Ha _ IH]; [reflexivity|].
  cbn. rewrite Ha. f_equal. exact IH.
Qed.

End ListFacts.

Lemma firstn_S_replace_nth (G : rowvec) (p : nat) (v : double) :
  p < length G ->
  firstn (S p) (arma.replace_nth G p v) = firstn p G ++ [v].
Proof.
  revert p; induction G as [| g G IH]; intros [| p] H; cbn in *; try lia.
  - reflexivity.
  - f_equal. apply IH. lia.
Qed.

Lemma replace_nth_length (G : rowvec) (p : nat) (v : double) :
  length (arma.replace_nth G p v) = length G.
Proof.
  revert p; induction G as [| g G IH]; intros [| p]; cbn; auto.
Qed.

Lemma skipn_replace_nth (G : rowvec) (p : nat) (v : double) :
  skipn (S p) (arma.replace_nth G p v) = skipn (S p) G.
Proof.
  revert p; induction G as [| g G IH]; intros [| p]; cbn; auto.
  apply IH.
Qed.

Section RidgeFacts.

Variable pow : double -> double -> double.

Lemma ridge_not_used_all_ones (tp : tuningParametersEnetGlmnet) :
  Forall (fun a => a = f64.one) (alpha tp) ->
  (Z.of_nat (length (alpha tp)) <= 2 ^ 53)%Z ->
  ridge_not_used tp = true.
Proof.
  intros Hone Hlen. unfold ridge_not_used, arma.n_elem.
  rewrite (Forall_eq_repeat _ _ Hone) at 1.
  rewrite sum_ones by exact Hlen.
  apply compare_refl_finite, of_Z_finite. lia.
Qed.

(** C5: when every [alpha[i]] is 1, the ridge value is exactly 0.0 and the
    ridge gradient is the vector of zeros, one per parameter, whatever the
    parameters, [lambda] and [weights] are.  The count of the [alpha] is at
    most 2^53, the range in which a double counts exactly. *)
Theorem ridge_disabled_is_zero (parameterValues : rowvec)
  (parameterLabels : stringVector) (tp : tuningParametersEnetGlmnet) :
  Forall (fun a => a = f64.one) (alpha tp) ->
  (Z.of_nat (length (alpha tp)) <= 2 ^ 53)%Z ->
  penaltyRidgeGlmnet_getValue pow parameterValues parameterLabels tp
  = Val f64.zero
  /\ penaltyRidgeGlmnet_getGradients parameterValues parameterLabels tp
     = Val (repeat f64.zero (length parameterValues)).
Proof.
  intros Hone Hlen.
  unfold penaltyRidgeGlmnet_getValue, penaltyRidgeGlmnet_getGradients.
  rewrite (ridge_not_used_all_ones tp Hone Hlen). split; reflexivity.
Qed.

Section Loops.

Variable parameterValues : rowvec.
Variable tp : tuningParametersEnetGlmnet.
Hypothesis alpha_length : length (alpha tp) = length parameterValues.
Hypothesis lambda_length : length (lambda tp) = length parameterValues.
Hypothesis weights_length : length (weights tp) = length parameterValues.

Lemma getValue_loop_spec (todo p : nat) (penalty : double) :
  p + todo = length parameterValues ->
  getValue_loop pow parameterValues tp todo p penalty
  = Val (fold_left f64.add
           (spec_ridge_terms pow (skipn p parameterValues)
              (skipn p (alpha tp)) (skipn p (lambda tp))
              (skipn p (weights tp)))
           penalty).
Proof.
  revert p penalty; induction todo as [| todo IH]; intros p penalty Hp.
  - rewrite (skipn_all2 parameterValues) by lia. reflexivity.
  - destruct (nth_error_in_range parameterValues p ltac:(lia)) as [x Hx].
    destruct (nth_error_in_range (alpha tp) p ltac:(lia)) as [a Ha].
    destruct (nth_error_in_range (lambda tp) p ltac:(lia)) as [l Hl].
    destruct (nth_error_in_range (weights tp) p ltac:(lia)) as [w Hw].
    cbn [getValue_loop]. unfold arma.at_.
    rewrite Ha, Hl, Hw, Hx. cbn [exc_bind].
    rewrite IH by lia.
    rewrite (skipn_nth_error _ _ _ Hx), (skipn_nth_error _ _ _ Ha),
      (skipn_nth_error _ _ _ Hl), (skipn_nth_error _ _ _ Hw).
    reflexivity.
Qed.

Lemma getGradients_loop_spec (todo p : nat) (gradients : rowvec) :
  p + todo = length parameterValues ->
  length gradients = length parameterValues ->
  getGradients_loop parameterValues tp todo p gradients
  = Val (firstn p gradients
         ++ spec_ridge_gradient_terms (skipn p parameterValues)
              (skipn p (alpha tp)) (skipn p (lambda tp))
              (skipn p (weights tp))).
Proof.
  revert p gradients; induction todo as [| todo IH]; intros p G Hp HG.
  - rewrite (skipn_all2 parameterValues) by lia. cbn.
    rewrite app_nil_r, firstn_all2 by lia. reflexivity.
  - destruct (nth_error_in_range parameterValues p ltac:(lia)) as [x Hx].
    destruct (nth_error_in_range (alpha tp) p ltac:(lia)) as [a Ha].
    destruct (nth_error_in_range (lambda tp) p ltac:(lia)) as [l Hl].
    destruct (nth_error_in_range (weights tp) p ltac:(lia)) as [w Hw].
    cbn [getGradients_loop]. unfold arma.at_.
    rewrite Ha, Hl, Hw, Hx. cbn [exc_bind].
    rewrite IH by (rewrite ?replace_nth_length; lia).
    rewrite firstn_S_replace_nth by lia.
    rewrite (skipn_nth_error _ _ _ Hx), (skipn_nth_error _ _ _ Ha),
      (skipn_nth_error _ _ _ Hl), (skipn_nth_error _ _ _ Hw).
    cbn [spec_ridge_gradient_terms]. unfold spec_lambda_i.
    rewrite <- app_assoc. cbn [app].
    rewrite (mul_comm f64.two). reflexivity.
Qed.

End Loops.

(** C6, as the code has it: when the sum of the [alpha] differs from their
    number (the test [getValue] and [getGradients] make), and [alpha],
    [lambda] and [weights] have one entry per parameter, the ridge value is
    the sum over i of [lambda_i * params[i]^2] and the ridge gradient is
    the vector of the [2 * lambda_i * params[i]], with
    [lambda_i = (1 - alpha[i]) * lambda[i] * weight[i]].  Both are functions
    of the parameters and the tuning parameters alone. *)
Theorem ridge_value_and_gradient (parameterValues : rowvec)
  (parameterLabels : stringVector) (tp : tuningParametersEnetGlmnet) :
  ridge_not_used tp = false ->
  length (alpha tp) = length parameterValues ->
  length (lambda tp) = length parameterValues ->
  length (weights tp) = length parameterValues ->
  penaltyRidgeGlmnet_getValue pow parameterValues parameterLabels tp
  = Val (spec_ridge_value pow parameterValues tp)
  /\ penaltyRidgeGlmnet_getGradients parameterValues parameterLabels tp
     = Val (spec_ridge_gradient parameterValues tp).
Proof.
  intros Hused Ha Hl Hw.
  unfold penaltyRidgeGlmnet_getValue, penaltyRidgeGlmnet_getGradients.
  rewrite Hused. unfold arma.n_elem. split.
  - rewrite getValue_loop_spec by (assumption || lia). reflexivity.
  - rewrite getGradients_loop_spec
      by (assumption || lia || apply repeat_length).
    reflexivity.
Qed.

(** The ridge penalty has a value at every point with one coordinate per
    entry of the tuning parameters. *)
Lemma ridge_is_defined (parameters : rowvec) (parameterLabels : stringVector)
  (tp : tuningParametersEnetGlmnet) :
  length (alpha tp) = length parameters ->
  length (lambda tp) = length parameters ->
  length (weights tp) = length parameters ->
  penalty_defined (penaltyRidgeGlmnet pow) parameters parameterLabels tp.
Proof.
  intros Ha Hl Hw p Hp. cbn. unfold penaltyRidgeGlmnet_getValue.
  destruct (ridge_not_used tp); [eauto|].
  unfold arma.n_elem.
  rewrite getValue_loop_spec by lia. eauto.
Qed.

End RidgeFacts.

Lemma ridge_disabled_is_zero_witness :
  penaltyRidgeGlmnet_getValue pow_small [f64.two; f64.of_Z 3] []
    {| alpha := [f64.one; f64.one]; lambda := [half; f64.two];
       weights := [f64.one; f64.one] |}
  = Val f64.zero
  /\ penaltyRidgeGlmnet_getGradients [f64.two; f64.of_Z 3] []
       {| alpha := [f64.one; f64.one]; lambda := [half; f64.two];
          weights := [f64.one; f64.one] |}
     = Val (repeat f64.zero 2).
Proof.
  apply (ridge_disabled_is_zero pow_small [f64.two; f64.of_Z 3] []
           {| alpha := [f64.one; f64.one]; lambda := [half; f64.two];
              weights := [f64.one; f64.one] |}).
  - repeat constructor.
  - simpl. lia.
Defined.

(** The scenario of the specification: two parameters 2 and 3 with
    [alpha = 0.5], [lambda = 1], [weights = 1] have the ridge value 6.5. *)
Lemma ridge_value_and_gradient_witness :
  penaltyRidgeGlmnet_getValue pow_small [f64.two; f64.of_Z 3] []
    {| alpha := [half; half]; lambda := [f64.one; f64.one];
       weights := [f64.one; f64.one] |}
  = Val (spec_ridge_value pow_small [f64.two; f64.of_Z 3]
           {| alpha := [half; half]; lambda := [f64.one; f64.one];
              weights := [f64.one; f64.one] |})
  /\ penaltyRidgeGlmnet_getGradients [f64.two; f64.of_Z 3] []
       {| alpha := [half; half]; lambda := [f64.one; f64.one];
          weights := [f64.one; f64.one] |}
     = Val (spec_ridge_gradient [f64.two; f64.of_Z 3]
              {| alpha := [half; half]; lambda := [f64.one; f64.one];
                 weights := [f64.one; f64.one] |}).
Proof.
  apply (ridge_value_and_gradient pow_small [f64.two; f64.of_Z 3] []
           {| alpha := [half; half]; lambda := [f64.one; f64.one];
              weights := [f64.one; f64.one] |});
    reflexivity.
Defined.

Example ridge_value_scenario :
  penaltyRidgeGlmnet_getValue pow_small [f64.two; f64.of_Z 3] []
    {| alpha := [half; half]; lambda := [f64.one; f64.one];
       weights := [f64.one; f64.one] |}
  = Val (f64.of_Z 13 / f64.two)%f64.
Proof. reflexivity. Qed.

(** C6 as stated fails: the [alpha] are 1 and 1 - 2^-53, both in [0,1] and
    not all 1, yet their sum rounds to 2.0, so value and gradient are zero
    where the formulas give 2^-53 and (0, 2^-52).  Outside the documented
    range no rounding is needed: the [alpha] 0 and 2 sum to 2 as well, and
    the value is zero where the formula gives 1. *)
Lemma ridge_not_all_ones_counterexample :
  (let tp := {| alpha := [f64.one; below_one];
                lambda := [f64.one; f64.one];
                weights := [f64.one; f64.one] |} in
   let params := [f64.zero; f64.one] in
   below_one <> f64.one
   /\ (below_one <? f64.one)%f64 = true
   /\ penaltyRidgeGlmnet_getValue pow_small params [] tp = Val f64.zero
   /\ spec_ridge_value pow_small params tp
      = S754_finite false 4503599627370496 (-105)
   /\ penaltyRidgeGlmnet_getGradients params [] tp
      = Val [f64.zero; f64.zero]
   /\ spec_ridge_gradient params tp
      = [f64.zero; S754_finite false 4503599627370496 (-104)])
  /\ (let tp := {| alpha := [f64.zero; f64.two];
                   lambda := [f64.one; f64.one];
                   weights := [f64.one; f64.one] |} in
      let params := [f64.one; f64.zero] in
      penaltyRidgeGlmnet_getValue pow_small params [] tp = Val f64.zero
      /\ spec_ridge_value pow_small params tp = f64.one
      /\ penaltyRidgeGlmnet_getGradients params [] tp
         = Val [f64.zero; f64.zero]
      /\ spec_ridge_gradient params tp = [f64.two; (- f64.zero)%f64]).
Proof.
  cbv zeta. repeat split; try reflexivity. discriminate.
Qed.

(** ** The line search *)

Lemma zip_with_length (f : double -> double -> double) (a b : list double) :
  length (arma.zip_with f a b) = Nat.min (length a) (length b).
Proof.
  revert b; induction a as [| x a IH]; intros [| y b]; cbn; auto.
Qed.

Lemma row_times_mat_acc_length (r : rowvec) (m : mat) (acc : rowvec) (c : nat) :
  length acc = c -> forallb (fun row => (length row =? c)%nat) m = true ->
  length (arma.row_times_mat_acc r m acc) = c.
Proof.
  revert m acc; induction r as [| x r IH]; intros [| row m] acc Hacc Hm;
    cbn; try assumption.
  cbn in Hm. apply andb_prop in Hm as [Hrow Hm].
  apply Nat.eqb_eq in Hrow.
  apply IH; [| exact Hm].
  rewrite zip_with_length, length_map. lia.
Qed.

Section LineSearchFacts.

Variable pow : double -> double -> double.
Context {T : Type}.
Variable model_ : model.t.
Variable smoothPenalty_ : smoothPenalty T.
Variable parameters_kMinus1 : rowvec.
Variable parameterLabels : stringVector.
Variable direction : rowvec.
Variable fit_kMinus1 : double.
Variable gradients_kMinus1 : rowvec.
Variable Hessian_kMinus1 : mat.
Variable tuningParameters : T.
Variable stepSize : double.
Variable sigma : double.
Variable gamma : double.

Local Abbreviation body :=
  (lineSearch_body pow model_ smoothPenalty_ parameters_kMinus1
     parameterLabels direction fit_kMinus1 gradients_kMinus1 Hessian_kMinus1
     tuningParameters stepSize sigma gamma).
Local Abbreviation loop :=
  (lineSearch_loop pow model_ smoothPenalty_ parameters_kMinus1
     parameterLabels direction fit_kMinus1 gradients_kMinus1 Hessian_kMinus1
     tuningParameters stepSize sigma gamma).
Local Abbreviation search :=
  (bfgsLineSearch pow model_ smoothPenalty_ parameters_kMinus1
     parameterLabels direction fit_kMinus1 gradients_kMinus1 Hessian_kMinus1
     tuningParameters stepSize sigma gamma).
Local Abbreviation stepLength := (spec_stepLength pow stepSize).
Local Abbreviation candidate :=
  (spec_candidate pow parameters_kMinus1 direction stepSize).
Local Abbreviation combined_fit :=
  (fun p => smooth_fit model_ smoothPenalty_ p parameterLabels
              tuningParameters).
Local Abbreviation decrease :=
  (spec_sufficient_decrease pow direction fit_kMinus1 gradients_kMinus1
     Hessian_kMinus1 stepSize sigma gamma).
Local Abbreviation gd := (spec_gd direction gradients_kMinus1).
Local Abbreviation dHd := (spec_dHd direction Hessian_kMinus1).
Local Abbreviation conforming :=
  (conforming parameters_kMinus1 direction gradients_kMinus1 Hessian_kMinus1).
Local Abbreviation penalty_defined :=
  (penalty_defined smoothPenalty_ parameters_kMinus1 parameterLabels
     tuningParameters).
Local Abbreviation gradients_at :=
  (fun p => model.gradients model_ p parameterLabels).
Local Abbreviation initial_state := (initial_state gradients_kMinus1).

Lemma candidate_defined (i : Z) :
  length direction = length parameters_kMinus1 ->
  exists p, candidate i = Val p.
Proof.
  intros H. unfold spec_candidate, arma.plus, arma.times.
  rewrite length_map, H, Nat.eqb_refl. eauto.
Qed.

Lemma compareTo_value :
  conforming ->
  compareTo direction gradients_kMinus1 Hessian_kMinus1 gamma
  = Val [[(gd + dHd * gamma + pen_d - pen_0)%f64]].
Proof.
  intros (_ & Hg & HH).
  unfold has_size in HH. apply andb_prop in HH as [Hrows Hcols].
  apply Nat.eqb_eq in Hrows.
  assert (Hc : arma.mat_n_cols Hessian_kMinus1 = length direction).
  { destruct Hessian_kMinus1 as [| row m]; cbn in *; [lia|].
    apply andb_prop in Hcols as [Hrow _]. apply Nat.eqb_eq in Hrow.
    exact Hrow. }
  unfold compareTo, arma.row_times_col, arma.row_times_mat, arma.trans,
    arma.mat_n_rows.
  rewrite Hg, Nat.eqb_refl. cbn [exc_bind].
  rewrite Hrows, Nat.eqb_refl. cbn [exc_bind].
  rewrite (row_times_mat_acc_length direction Hessian_kMinus1 _
             (length direction))
    by (unfold arma.filled; rewrite ?repeat_length; assumption).
  rewrite Nat.eqb_refl. reflexivity.
Qed.

(** The test of the code and the test in the words of the specification
    agree: the terms [+ 0.0] and [- 0.0] of the code change the sign of a
    zero at most. *)
Lemma code_test_is_spec_test (i : Z) (fit_k : double) :
  (fit_k + f64.zero - f_0 fit_kMinus1
   <=? sigma * stepLength i * (gd + dHd * gamma + pen_d - pen_0))%f64
  = decrease i fit_k.
Proof.
  unfold spec_sufficient_decrease, f_0, pen_0, pen_d.
  apply leb_same.
  - apply sub_same; apply add_zero_same.
  - apply mul_same. rewrite (mul_comm gamma).
    eapply same_value_trans; [apply sub_zero_same | apply add_zero_same].
Qed.

Lemma combined_fit_inv (p : rowvec) (f : double) :
  combined_fit p = Val f ->
  exists pen, getValue p parameterLabels tuningParameters = Val pen
              /\ f = (model.fit model_ p parameterLabels + pen)%f64.
Proof.
  unfold smooth_fit.
  destruct (getValue p parameterLabels tuningParameters) as [pen | msg];
    cbn; intros H; [| discriminate].
  injection H as <-. eauto.
Qed.

Lemma candidate_length (i : Z) (p : rowvec) :
  candidate i = Val p -> length p = length parameters_kMinus1.
Proof.
  unfold spec_candidate, arma.plus.
  destruct (length parameters_kMinus1 =? length _) eqn:E; [| discriminate].
  apply Nat.eqb_eq in E. intros H; injection H as <-.
  rewrite zip_with_length. lia.
Qed.

Lemma combined_fit_defined (p : rowvec) :
  penalty_defined -> length p = length parameters_kMinus1 ->
  exists f, combined_fit p = Val f.
Proof.
  intros Hpen Hlen. destruct (Hpen p Hlen) as [pen Hp].
  unfold smooth_fit. rewrite Hp. cbn. eauto.
Qed.

(** An iteration at a candidate with a non-finite combined fit. *)
Lemma body_nonfinite_fit (i : Z) (st : lineSearch.state) (p : rowvec)
  (f : double) :
  candidate i = Val p -> combined_fit p = Val f ->
  f64.is_finite f = false ->
  body i st
  = Val ({| lineSearch.currentStepSize := stepLength i;
            lineSearch.parameters_k := p;
            lineSearch.gradients_k := lineSearch.gradients_k st;
            lineSearch.converged := lineSearch.converged st |}, Continue).
Proof.
  intros Hc Hf Hfin.
  apply combined_fit_inv in Hf as (pen & Hpen & ->).
  unfold lineSearch_body. fold (stepLength i). fold (candidate i).
  rewrite Hc. cbn [exc_bind]. rewrite Hpen. cbn [exc_bind].
  rewrite Hfin. reflexivity.
Qed.

(** An iteration at a candidate with a finite combined fit. *)
Lemma body_finite_fit (i : Z) (st : lineSearch.state) (p : rowvec)
  (f : double) :
  conforming ->
  candidate i = Val p -> combined_fit p = Val f ->
  f64.is_finite f = true ->
  body i st
  = Val (if decrease i f then
           ({| lineSearch.currentStepSize := stepLength i;
               lineSearch.parameters_k := p;
               lineSearch.gradients_k := gradients_at p;
               lineSearch.converged := true |},
            if arma.is_finite (gradients_at p) then Break else Continue)
         else
           ({| lineSearch.currentStepSize := stepLength i;
               lineSearch.parameters_k := p;
               lineSearch.gradients_k := lineSearch.gradients_k st;
               lineSearch.converged := false |}, Continue)).
Proof.
  intros Hconf Hc Hf Hfin.
  apply combined_fit_inv in Hf as (pen & Hpen & ->).
  unfold lineSearch_body. fold (stepLength i). fold (candidate i).
  rewrite Hc. cbn [exc_bind]. rewrite Hpen. cbn [exc_bind].
  rewrite Hfin. cbn [negb].
  rewrite (compareTo_value Hconf). cbn [exc_bind arma.mat_get nth_error].
  rewrite code_test_is_spec_test.
  destruct (decrease i _); [| reflexivity].
  destruct (arma.is_finite _); reflexivity.
Qed.

(** With conforming dimensions and a penalty that has a value, an
    iteration never throws, whatever the model returns. *)
Lemma body_defined (i : Z) (st : lineSearch.state) :
  conforming -> penalty_defined ->
  exists st' fl, body i st = Val (st', fl).
Proof.
  intros Hconf Hpen.
  destruct (candidate_defined i (proj1 Hconf)) as [p Hp].
  destruct (combined_fit_defined p Hpen (candidate_length i p Hp)) as [f Hf].
  destruct (f64.is_finite f) eqn:Hfin.
  - rewrite (body_finite_fit i st p f Hconf Hp Hf Hfin).
    destruct (decrease i f); eauto.
  - rewrite (body_nonfinite_fit i st p f Hp Hf Hfin). eauto.
Qed.

Lemma loop_continue (todo : nat) (i : Z) (st st' : lineSearch.state) :
  body i st = Val (st', Continue) ->
  loop (S todo) i st = loop todo (i + 1)%Z st'.
Proof. intros H. cbn [lineSearch_loop]. rewrite H. reflexivity. Qed.

Lemma loop_break (todo : nat) (i : Z) (st st' : lineSearch.state) :
  body i st = Val (st', Break) -> loop (S todo) i st = Val st'.
Proof. intros H. cbn [lineSearch_loop]. rewrite H. reflexivity. Qed.

Lemma loop_defined (todo : nat) (i : Z) (st : lineSearch.state) :
  conforming -> penalty_defined -> exists st', loop todo i st = Val st'.
Proof.
  intros Hconf Hpen. revert i st.
  induction todo as [| todo IH]; intros i st; [cbn; eauto|].
  destruct (body_defined i st Hconf Hpen) as (st' & [|] & Hb).
  - rewrite (loop_continue todo i st st' Hb). apply IH.
  - rewrite (loop_break todo i st st' Hb). eauto.
Qed.

(** What an iteration leaves in the state: the step length of the schedule
    and its candidate. *)
Lemma body_schedule (i : Z) (st st' : lineSearch.state) (fl : flow) :
  body i st = Val (st', fl) ->
  lineSearch.currentStepSize st' = stepLength i
  /\ candidate i = Val (lineSearch.parameters_k st').
Proof.
  unfold lineSearch_body. fold (stepLength i). fold (candidate i).
  destruct (candidate i) as [p | msg]; cbn [exc_bind]; [| discriminate].
  destruct (getValue p parameterLabels tuningParameters) as [pen | msg];
    cbn [exc_bind]; [| discriminate].
  destruct (negb (f64.is_finite _)).
  { intros H; injection H as <- _. split; reflexivity. }
  destruct (compareTo _ _ _ _) as [c | msg]; cbn [exc_bind]; [| discriminate].
  destruct (arma.mat_get c 0 0) as [c00 | msg]; cbn [exc_bind];
    [| discriminate].
  destruct (f64.leb _ _).
  - destruct (negb (arma.is_finite _)); intros H; injection H as <- _;
      split; reflexivity.
  - intros H; injection H as <- _. split; reflexivity.
Qed.

Lemma loop_schedule (todo : nat) (i : Z) (st st' : lineSearch.state) :
  loop todo i st = Val st' -> 0 < todo ->
  exists j, (i <= j < i + Z.of_nat todo)%Z
            /\ lineSearch.currentStepSize st' = stepLength j
            /\ candidate j = Val (lineSearch.parameters_k st').
Proof.
  revert i st; induction todo as [| todo IH]; intros i st H Hpos; [lia|].
  cbn [lineSearch_loop] in H.
  destruct (body i st) as [[st1 fl] | msg] eqn:Hb; cbn [exc_bind] in H;
    [| discriminate].
  destruct (body_schedule i st st1 fl Hb) as [Hs Hc].
  destruct fl.
  - destruct todo as [| todo'].
    + cbn in H. injection H as <-. exists i. repeat split; (lia || assumption).
    + destruct (IH (i + 1)%Z st1 H ltac:(lia)) as (j & Hj & Hs' & Hc').
      exists j. repeat split; (lia || assumption).
  - injection H as <-. exists i. repeat split; (lia || assumption).
Qed.

(** The line search draws once or twice from the random source, runs the
    loop, and warns when the flag [converged] is not set. *)
Lemma search_unfold (maxIterLine verbose : Z) (w : world) :
  exists (w1 : world) (s0 : double),
    events w1 = events w
    /\ search maxIterLine verbose w
       = match loop (Z.to_nat maxIterLine) 0%Z (initial_state s0) with
         | Val st =>
             Returns (lineSearch.parameters_k st)
               (if lineSearch.converged st then w1
                else with_event w1 not_converged_warning)
         | Exn msg => Throws msg w1
         end.
Proof.
  unfold bfgsLineSearch, bind, unif, lift, ret, warn, emit.
  cbn [seq map toNumericVector values arma.at_ nth_error cursor draws events].
  destruct (f64.ltb (draws w (cursor w)) f64.lit_0_25).
  - cbn [seq map toNumericVector values arma.at_ nth_error cursor draws
           events].
    exists {| draws := draws w; cursor := cursor w + 1 + 1;
              events := events w |}, (draws w (cursor w + 1)).
    split; [reflexivity|]. fold (initial_state (draws w (cursor w + 1))).
    destruct (loop _ _ _) as [st | msg]; [| reflexivity].
    destruct (lineSearch.converged st); reflexivity.
  - exists {| draws := draws w; cursor := cursor w + 1; events := events w |},
      (if (stepSize >=? f64.one)%f64 then f64.lit_0_9 else stepSize).
    split; [reflexivity|].
    fold (initial_state
            (if (stepSize >=? f64.one)%f64 then f64.lit_0_9 else stepSize)).
    destruct (loop _ _ _) as [st | msg]; [| reflexivity].
    destruct (lineSearch.converged st); reflexivity.
Qed.

Lemma body_ignores_step (i : Z) (st st' : lineSearch.state) :
  lineSearch.gradients_k st = lineSearch.gradients_k st' ->
  lineSearch.converged st = lineSearch.converged st' ->
  body i st = body i st'.
Proof.
  intros Hg Hc. unfold lineSearch_body. rewrite Hg, Hc. reflexivity.
Qed.

(** The loop does not read the step size it is started with. *)
Lemma loop_ignores_step (todo : nat) (i : Z) (s0 s1 : double) :
  match loop todo i (initial_state s0), loop todo i (initial_state s1) with
  | Val a, Val b =>
      lineSearch.parameters_k a = lineSearch.parameters_k b
      /\ lineSearch.converged a = lineSearch.converged b
  | Exn m, Exn m' => m = m'
  | _, _ => False
  end.
Proof.
  destruct todo as [| todo]; [cbn; auto|].
  cbn [lineSearch_loop].
  rewrite (body_ignores_step i (initial_state s0) (initial_state s1))
    by reflexivity.
  destruct (body i (initial_state s1)) as [[st' fl] | msg]; cbn [exc_bind];
    [| reflexivity].
  destruct fl; [| auto].
  destruct (loop todo (i + 1)%Z st'); auto.
Qed.

(** C2, what the code does: the parameters the line search returns (or the
    exception it throws) are the same whatever the random source draws.
    The step size chosen before the loop, clamped or redrawn, is overwritten
    by [stepSize ^ iteration] before its first use. *)
Theorem bfgsLineSearch_ignores_random_source (maxIterLine verbose : Z)
  (w1 w2 : world) :
  result_of (search maxIterLine verbose w1)
  = result_of (search maxIterLine verbose w2).
Proof.
  destruct (search_unfold maxIterLine verbose w1) as (w1' & s1 & _ & ->).
  destruct (search_unfold maxIterLine verbose w2) as (w2' & s2 & _ & ->).
  pose proof (loop_ignores_step (Z.to_nat maxIterLine) 0%Z s1 s2) as H.
  destruct (loop _ _ (initial_state s1)) as [a | m],
    (loop _ _ (initial_state s2)) as [b | m']; cbn; try contradiction.
  - destruct H as [-> _]. reflexivity.
  - rewrite H. reflexivity.
Qed.


(** C4: at a candidate with a finite combined fit [f_k], the acceptance
    test of the line search, its flag [converged], is set exactly when
    [f_k - f_0 <= sigma * stepLength * (gradient_kMinus1 . direction
    + gamma * direction^T * Hessian_kMinus1 * direction)], [f_0] being the
    previous combined fit.  The loop ends at this candidate when the test
    holds and the gradient there is finite. *)
Theorem sufficient_decrease_test (i : Z) (st : lineSearch.state)
  (p : rowvec) (f_k : double) :
  conforming ->
  candidate i = Val p -> combined_fit p = Val f_k ->
  f64.is_finite f_k = true ->
  exists (st' : lineSearch.state) (fl : flow),
    body i st = Val (st', fl)
    /\ lineSearch.parameters_k st' = p
    /\ lineSearch.converged st'
       = (f_k - fit_kMinus1
          <=? sigma * pow stepSize (f64.of_Z i)
              * (arma.dot gradients_kMinus1 direction + gamma * dHd))%f64
    /\ (fl = Break <->
        lineSearch.converged st' = true
        /\ arma.is_finite (gradients_at p) = true).
Proof.
  intros Hconf Hc Hf Hfin.
  change (exists (st' : lineSearch.state) (fl : flow),
             body i st = Val (st', fl)
             /\ lineSearch.parameters_k st' = p
             /\ lineSearch.converged st' = decrease i f_k
             /\ (fl = Break <->
                 lineSearch.converged st' = true
                 /\ arma.is_finite (gradients_at p) = true)).
  rewrite (body_finite_fit i st p f_k Hconf Hc Hf Hfin).
  destruct (decrease i f_k) eqn:Hd;
    [destruct (arma.is_finite (gradients_at p)) eqn:Hg |];
    eexists _, _; (split; [reflexivity|]); cbn;
    (split; [reflexivity|]); (split; [reflexivity|]); split;
    try discriminate; try tauto; intros [? ?]; discriminate.
Qed.

(** With [gamma = 0] and a finite curvature term the right-hand side is the
    Armijo bound [sigma * stepLength * (gradient_kMinus1 . direction)]. *)
Lemma armijo_when_gamma_is_zero (i : Z) (f_k : double) (s : bool) :
  gamma = S754_zero s -> f64.is_finite dHd = true ->
  decrease i f_k
  = (f_k - fit_kMinus1 <=? sigma * stepLength i * gd)%f64.
Proof.
  intros -> Hfin. unfold spec_sufficient_decrease.
  apply leb_same; [apply same_value_refl|]. apply mul_same.
  destruct dHd as [sd | sd | | sd md ed]; try discriminate; cbn;
    destruct gd as [[|] | [|] | | sg mg eg], s, sd; cbn;
    try (left; reflexivity); right; eauto.
Qed.

Lemma decrease_when_sigma_is_zero (i : Z) (f_k : double) (s : bool) :
  sigma = S754_zero s ->
  f64.is_finite (stepLength i) = true ->
  f64.is_finite (gd + gamma * dHd)%f64 = true ->
  decrease i f_k = (f_k - fit_kMinus1 <=? f64.zero)%f64.
Proof.
  intros -> Hs Hc. unfold spec_sufficient_decrease.
  destruct (zero_mul_finite s _ _ Hs Hc) as [s' ->].
  apply leb_same; [apply same_value_refl | right; unfold f64.zero; eauto].
Qed.

(** The loop ends at the first iteration whose candidate passes the test
    with a finite gradient. *)
Lemma loop_first_accepted (todo : nat) (i j : Z) (st : lineSearch.state)
  (p : rowvec) (f_k : double) :
  conforming -> penalty_defined ->
  (i <= j < i + Z.of_nat todo)%Z ->
  candidate j = Val p -> combined_fit p = Val f_k ->
  f64.is_finite f_k = true -> decrease j f_k = true ->
  arma.is_finite (gradients_at p) = true ->
  (forall k pk fk,
      (i <= k < j)%Z -> candidate k = Val pk -> combined_fit pk = Val fk ->
      ~ (f64.is_finite fk = true /\ decrease k fk = true
         /\ arma.is_finite (gradients_at pk) = true)) ->
  exists st', loop todo i st = Val st'
              /\ lineSearch.parameters_k st' = p
              /\ lineSearch.converged st' = true.
Proof.
  intros Hconf Hpen Hj Hc Hf Hfin Hd Hg.
  revert i st Hj; induction todo as [| todo IH]; intros i st Hj Hbefore;
    [lia|].
  destruct (Z.eq_dec i j) as [-> | Hne].
  - pose proof (body_finite_fit j st p f_k Hconf Hc Hf Hfin) as Hb.
    rewrite Hd, Hg in Hb.
    rewrite (loop_break todo j st _ Hb). eauto.
  - destruct (candidate_defined i (proj1 Hconf)) as [pi Hpi].
    destruct (combined_fit_defined pi Hpen (candidate_length i pi Hpi))
      as [fi Hfi].
    specialize (Hbefore i pi fi ltac:(lia) Hpi Hfi) as Hno.
    assert (exists st1, body i st = Val (st1, Continue)) as [st1 Hb].
    { destruct (f64.is_finite fi) eqn:Hfini.
      - rewrite (body_finite_fit i st pi fi Hconf Hpi Hfi Hfini).
        destruct (decrease i fi) eqn:Hdi; [| eauto].
        destruct (arma.is_finite (gradients_at pi)) eqn:Hgi; [| eauto].
        exfalso. apply Hno. auto.
      - rewrite (body_nonfinite_fit i st pi fi Hpi Hfi Hfini). eauto. }
    rewrite (loop_continue todo i st st1 Hb).
    apply IH; [lia|].
    intros k pk fk Hk. apply Hbefore. lia.
Qed.

(** C1, as the code has it: with [sigma = 0] and finite step lengths and
    directional terms, the line search returns, without a warning, the
    first candidate whose combined fit is finite and not above the previous
    fit ([f_k - f_0 <= 0]) and whose gradient is finite. *)
Theorem sigma_zero_first_non_increasing (s : bool)
  (maxIterLine verbose j : Z) (p : rowvec) (f_k : double) (w : world) :
  sigma = S754_zero s ->
  conforming -> penalty_defined ->
  f64.is_finite (gd + gamma * dHd)%f64 = true ->
  (forall k, (0 <= k <= j)%Z -> f64.is_finite (stepLength k) = true) ->
  (0 <= j < maxIterLine)%Z ->
  candidate j = Val p -> combined_fit p = Val f_k ->
  f64.is_finite f_k = true ->
  (f_k - fit_kMinus1 <=? f64.zero)%f64 = true ->
  arma.is_finite (gradients_at p) = true ->
  (forall k pk fk,
      (0 <= k < j)%Z -> candidate k = Val pk -> combined_fit pk = Val fk ->
      ~ (f64.is_finite fk = true
         /\ (fk - fit_kMinus1 <=? f64.zero)%f64 = true
         /\ arma.is_finite (gradients_at pk) = true)) ->
  exists w', search maxIterLine verbose w = Returns p w'
             /\ events w' = events w.
Proof.
  intros Hsig Hconf Hpen Hc Hsteps Hj Hcand Hfit Hfin Hle Hgrad Hbefore.
  destruct (search_unfold maxIterLine verbose w) as (w1 & s0 & Hev & ->).
  destruct (loop_first_accepted (Z.to_nat maxIterLine) 0 j (initial_state s0)
              p f_k Hconf Hpen ltac:(lia) Hcand Hfit Hfin)
    as (st' & -> & <- & ->).
  - rewrite (decrease_when_sigma_is_zero j f_k s Hsig)
      by (exact Hc || (apply Hsteps; lia)).
    exact Hle.
  - exact Hgrad.
  - intros k pk fk Hk Hpk Hfk (Ha & Hb & Hg).
    apply (Hbefore k pk fk Hk Hpk Hfk).
    rewrite (decrease_when_sigma_is_zero k fk s Hsig) in Hb
      by (exact Hc || (apply Hsteps; lia)).
    auto.
  - eauto.
Qed.

(** The line search returns, and at most warns, whatever the model
    returns at the candidates. *)
Lemma search_returns (maxIterLine verbose : Z) (w : world) :
  conforming -> penalty_defined ->
  exists p w',
    search maxIterLine verbose w = Returns p w'
    /\ (events w' = events w
        \/ events w' = events w ++ [not_converged_warning]).
Proof.
  intros Hconf Hpen.
  destruct (search_unfold maxIterLine verbose w) as (w1 & s0 & Hev & ->).
  destruct (loop_defined (Z.to_nat maxIterLine) 0 (initial_state s0)
              Hconf Hpen) as [st ->].
  eexists _, _. split; [reflexivity|].
  destruct (lineSearch.converged st); cbn; rewrite Hev; auto.
Qed.

(** C7: a candidate whose combined fit is not finite, or that passes the
    decrease test with a gradient that is not finite, ends its iteration
    with [continue]: the loop goes on with the next step length of the
    schedule, and no exception is thrown.  The line search as a whole
    returns parameters and at most warns, whatever values the model
    returns. *)
Theorem soft_failures_are_skipped (i : Z) (st : lineSearch.state)
  (p : rowvec) (f_k : double) :
  conforming -> penalty_defined ->
  candidate i = Val p -> combined_fit p = Val f_k ->
  f64.is_finite f_k = false
  \/ (f64.is_finite f_k = true /\ decrease i f_k = true
      /\ arma.is_finite (gradients_at p) = false) ->
  (exists st',
      body i st = Val (st', Continue)
      /\ lineSearch.parameters_k st' = p
      /\ forall todo, loop (S todo) i st = loop todo (i + 1)%Z st')
  /\ (forall maxIterLine verbose w,
         exists p' w',
           search maxIterLine verbose w = Returns p' w'
           /\ (events w' = events w
               \/ events w' = events w ++ [not_converged_warning])).
Proof.
  intros Hconf Hpen Hc Hf Hsoft. split.
  - destruct Hsoft as [Hfin | (Hfin & Hd & Hg)].
    + pose proof (body_nonfinite_fit i st p f_k Hc Hf Hfin) as Hb.
      eexists. split; [exact Hb|]. split; [reflexivity|].
      intros todo. apply loop_continue. exact Hb.
    + pose proof (body_finite_fit i st p f_k Hconf Hc Hf Hfin) as Hb.
      rewrite Hd, Hg in Hb.
      eexists. split; [exact Hb|]. split; [reflexivity|].
      intros todo. apply loop_continue. exact Hb.
  - intros maxIterLine verbose w. apply search_returns; assumption.
Qed.

(** When no candidate passes the test, the loop runs to its end and leaves
    the last candidate, with the flag [converged] unset. *)
Lemma loop_all_rejected (todo : nat) (i : Z) (st : lineSearch.state) :
  conforming -> penalty_defined ->
  (forall k pk fk,
      (i <= k < i + Z.of_nat todo)%Z ->
      candidate k = Val pk -> combined_fit pk = Val fk ->
      f64.is_finite fk = true -> decrease k fk = false) ->
  lineSearch.converged st = false ->
  0 < todo ->
  exists st', loop todo i st = Val st'
              /\ lineSearch.converged st' = false
              /\ candidate (i + Z.of_nat todo - 1)
                 = Val (lineSearch.parameters_k st').
Proof.
  intros Hconf Hpen. revert i st.
  induction todo as [| todo IH]; intros i st Hrej Hst Hpos; [lia|].
  destruct (candidate_defined i (proj1 Hconf)) as [p Hp].
  destruct (combined_fit_defined p Hpen (candidate_length i p Hp)) as [f Hf].
  assert (exists st1, body i st = Val (st1, Continue)
                      /\ lineSearch.converged st1 = false
                      /\ lineSearch.parameters_k st1 = p)
    as (st1 & Hb & Hc1 & Hp1).
  { destruct (f64.is_finite f) eqn:Hfin.
    - rewrite (body_finite_fit i st p f Hconf Hp Hf Hfin).
      rewrite (Hrej i p f ltac:(lia) Hp Hf Hfin). eauto.
    - rewrite (body_nonfinite_fit i st p f Hp Hf Hfin). eauto. }
  rewrite (loop_continue todo i st st1 Hb).
  destruct todo as [| todo'].
  - cbn. exists st1. repeat split; try assumption.
    rewrite Hp1. replace (i + 1 - 1)%Z with i by lia. exact Hp.
  - destruct (IH (i + 1)%Z st1) as (st' & Hl & Hc' & Hp'); try assumption.
    + intros k pk fk Hk. apply Hrej. lia.
    + lia.
    + exists st'. repeat split; try assumption.
      replace (i + Z.of_nat (S (S todo')) - 1)%Z
        with (i + 1 + Z.of_nat (S todo') - 1)%Z by lia.
      exact Hp'.
Qed.

(** C8: when none of the [maxIterLine] candidates with a finite combined
    fit passes the acceptance test, the line search returns the candidate
    of the last iteration, for [maxIterLine = 1] the previous parameters
    plus the full direction, and its only effect besides the random draws
    is the warning: it returns to its caller, which goes on with these
    parameters. *)
Theorem exhausted_line_search_returns_last_candidate
  (maxIterLine verbose : Z) (w : world) :
  (forall x, pow x f64.zero = f64.one) ->
  conforming -> penalty_defined ->
  (1 <= maxIterLine)%Z ->
  (forall k pk fk,
      (0 <= k < maxIterLine)%Z ->
      candidate k = Val pk -> combined_fit pk = Val fk ->
      f64.is_finite fk = true -> decrease k fk = false) ->
  exists p w',
    search maxIterLine verbose w = Returns p w'
    /\ arma.plus parameters_kMinus1
         (arma.times (pow stepSize (f64.of_Z (maxIterLine - 1))) direction)
       = Val p
    /\ events w' = events w ++ [Warning "Line search did not converge."]
    /\ (maxIterLine = 1%Z ->
        arma.plus parameters_kMinus1 (arma.times f64.one direction) = Val p).
Proof.
  intros Hpow Hconf Hpen Hmax Hrej.
  destruct (search_unfold maxIterLine verbose w) as (w1 & s0 & Hev & ->).
  destruct (loop_all_rejected (Z.to_nat maxIterLine) 0 (initial_state s0)
              Hconf Hpen) as (st' & -> & -> & Hc).
  - intros k pk fk Hk. apply Hrej. lia.
  - reflexivity.
  - lia.
  - replace (0 + Z.of_nat (Z.to_nat maxIterLine) - 1)%Z
      with (maxIterLine - 1)%Z in Hc by lia.
    eexists _, _. split; [reflexivity|].
    split; [exact Hc|]. split; [cbn; rewrite Hev; reflexivity|].
    intros ->. unfold spec_candidate, spec_stepLength in Hc.
    change (f64.of_Z (1 - 1)) with f64.zero in Hc.
    rewrite Hpow in Hc. exact Hc.
Qed.

(** When the loop does not run, the line search returns the vector it
    prepared before the loop: one NaN, since a row vector has one row. *)
Lemma search_without_iterations (maxIterLine verbose : Z) (w : world) :
  (maxIterLine <= 0)%Z ->
  exists w',
    search maxIterLine verbose w = Returns [f64.nan] w'
    /\ events w' = events w ++ [not_converged_warning].
Proof.
  intros Hmax.
  destruct (search_unfold maxIterLine verbose w) as (w1 & s0 & Hev & ->).
  replace (Z.to_nat maxIterLine) with 0 by lia.
  cbn. eexists. split; [reflexivity|]. cbn. rewrite Hev. reflexivity.
Qed.

End LineSearchFacts.

Lemma ridge_off_defined (labels : stringVector) :
  penalty_defined (penaltyRidgeGlmnet pow_small) [f64.zero] labels ridge_off.
Proof. intros p _. exists f64.zero. reflexivity. Qed.

(** C1 as stated fails: with [sigma = 0] the first candidate, 1, has the
    finite combined fit 3 and the finite gradient 7, and the line search
    returns 0.25: the fit 3 is above the previous fit 0. *)
Lemma sigma_zero_counterexample :
  spec_candidate pow_small [f64.zero] [f64.one] half 0 = Val [f64.one]
  /\ smooth_fit steep_model (penaltyRidgeGlmnet pow_small) [f64.one] []
       ridge_off
     = Val (f64.of_Z 3)
  /\ f64.is_finite (f64.of_Z 3) = true
  /\ model.gradients steep_model [f64.one] [] = [f64.of_Z 7]
  /\ arma.is_finite [f64.of_Z 7] = true
  /\ result_of (steep_search f64.zero 5 (constant_source half))
     = Val [quarter]
  /\ events_of (steep_search f64.zero 5 (constant_source half)) = [].
Proof. repeat split; reflexivity. Qed.

Lemma sigma_zero_first_non_increasing_witness :
  exists w',
    steep_search f64.zero 5 (constant_source half) = Returns [quarter] w'
    /\ events w' = events (constant_source half).
Proof.
  apply (sigma_zero_first_non_increasing pow_small steep_model
           (penaltyRidgeGlmnet pow_small) [f64.zero] [] [f64.one] f64.zero
           [(- f64.one)%f64] [[f64.one]] ridge_off half f64.zero f64.zero
           false 5 0 2 [quarter] f64.zero (constant_source half)).
  - reflexivity.
  - repeat split.
  - apply ridge_off_defined.
  - reflexivity.
  - intros k Hk.
    assert (k = 0 \/ k = 1 \/ k = 2)%Z as [-> | [-> | ->]] by lia;
      reflexivity.
  - lia.
  - reflexivity.
  - reflexivity.
  - reflexivity.
  - reflexivity.
  - reflexivity.
  - intros k pk fk Hk Hc Hf [_ [Hle _]].
    assert (k = 0 \/ k = 1)%Z as [-> | ->] by lia;
      injection Hc as <-; injection Hf as <-; discriminate Hle.
Defined.

(** Two runs of one line search, the first with a random source that makes
    the search redraw its step size, return the same parameters. *)
Example random_source_example :
  (eighth <? f64.lit_0_25)%f64 = true
  /\ (half <? f64.lit_0_25)%f64 = false
  /\ result_of (steep_search f64.zero 5 (constant_source eighth))
     = Val [quarter]
  /\ result_of (steep_search f64.zero 5 (constant_source half))
     = Val [quarter].
Proof. repeat split; reflexivity. Qed.


Lemma sufficient_decrease_test_witness :
  exists (st' : lineSearch.state) (fl : flow),
    lineSearch_body pow_small steep_model (penaltyRidgeGlmnet pow_small)
      [f64.zero] [] [f64.one] f64.zero [(- f64.one)%f64] [[f64.one]]
      ridge_off half quarter f64.zero 2
      (initial_state [(- f64.one)%f64] half)
    = Val (st', fl)
    /\ lineSearch.parameters_k st' = [quarter]
    /\ lineSearch.converged st'
       = (f64.zero - f64.zero
          <=? quarter * pow_small half (f64.of_Z 2)
              * (arma.dot [(- f64.one)%f64] [f64.one]
                 + f64.zero * spec_dHd [f64.one] [[f64.one]]))%f64
    /\ (fl = Break <->
        lineSearch.converged st' = true
        /\ arma.is_finite (model.gradients steep_model [quarter] [])
           = true).
Proof.
  apply (sufficient_decrease_test pow_small steep_model
           (penaltyRidgeGlmnet pow_small) [f64.zero] [] [f64.one] f64.zero
           [(- f64.one)%f64] [[f64.one]] ridge_off half quarter f64.zero
           2 (initial_state [(- f64.one)%f64] half) [quarter] f64.zero).
  - repeat split.
  - reflexivity.
  - reflexivity.
  - reflexivity.
Defined.

Lemma soft_failures_are_skipped_witness :
  (exists st',
      lineSearch_body pow_small partial_model (penaltyRidgeGlmnet pow_small)
        [f64.zero] [] [f64.one] f64.zero [(- f64.one)%f64] [[f64.one]]
        ridge_off half quarter f64.zero 1
        (initial_state [(- f64.one)%f64] half)
      = Val (st', Continue)
      /\ lineSearch.parameters_k st' = [half]
      /\ forall todo,
          lineSearch_loop pow_small partial_model
            (penaltyRidgeGlmnet pow_small) [f64.zero] [] [f64.one] f64.zero
            [(- f64.one)%f64] [[f64.one]] ridge_off half quarter f64.zero
            (S todo) 1 (initial_state [(- f64.one)%f64] half)
          = lineSearch_loop pow_small partial_model
              (penaltyRidgeGlmnet pow_small) [f64.zero] [] [f64.one]
              f64.zero [(- f64.one)%f64] [[f64.one]] ridge_off half quarter
              f64.zero todo (1 + 1) st')
  /\ (forall maxIterLine verbose w,
         exists p' w',
           bfgsLineSearch pow_small partial_model
             (penaltyRidgeGlmnet pow_small) [f64.zero] [] [f64.one] f64.zero
             [(- f64.one)%f64] [[f64.one]] ridge_off half quarter f64.zero
             maxIterLine verbose w
           = Returns p' w'
           /\ (events w' = events w
               \/ events w' = events w ++ [not_converged_warning])).
Proof.
  apply (soft_failures_are_skipped pow_small partial_model
           (penaltyRidgeGlmnet pow_small) [f64.zero] [] [f64.one] f64.zero
           [(- f64.one)%f64] [[f64.one]] ridge_off half quarter f64.zero
           1 (initial_state [(- f64.one)%f64] half) [half]
           (- half)%f64).
  - repeat split.
  - apply ridge_off_defined.
  - reflexivity.
  - reflexivity.
  - right. repeat split.
Defined.

Lemma exhausted_line_search_witness :
  exists p w',
    steep_search quarter 1 (constant_source half) = Returns p w'
    /\ arma.plus [f64.zero]
         (arma.times (pow_small half (f64.of_Z (1 - 1))) [f64.one])
       = Val p
    /\ events w'
       = events (constant_source half)
         ++ [Warning "Line search did not converge."]
    /\ (1%Z = 1%Z ->
        arma.plus [f64.zero] (arma.times f64.one [f64.one]) = Val p).
Proof.
  apply (exhausted_line_search_returns_last_candidate pow_small steep_model
           (penaltyRidgeGlmnet pow_small) [f64.zero] [] [f64.one] f64.zero
           [(- f64.one)%f64] [[f64.one]] ridge_off half quarter f64.zero
           1 0 (constant_source half)).
  - intros x. reflexivity.
  - repeat split.
  - apply ridge_off_defined.
  - lia.
  - intros k pk fk Hk Hc Hf _.
    assert (k = 0)%Z as -> by lia.
    injection Hc as <-. injection Hf as <-. reflexivity.
Defined.

(** The flag [converged] stays set when a candidate passes the test and
    its gradient is not finite: with two iterations the second candidate,
    0.5, is returned without a warning. *)
Example unaccepted_candidate_without_warning :
  result_of (partial_search 2 (constant_source half)) = Val [half]
  /\ events_of (partial_search 2 (constant_source half)) = []
  /\ arma.is_finite (model.gradients partial_model [half] []) = false.
Proof. repeat split; reflexivity. Qed.

(** C10 at a gradient of two entries and [maxIterLine = 0]: the line
    search returns one NaN, not two, and warns. *)
Lemma no_iterations_return_one_nan :
  result_of (bowl_search_without_iterations (constant_source half))
  = Val [f64.nan]
  /\ events_of (bowl_search_without_iterations (constant_source half))
     = [Warning "Line search did not converge."]
  /\ length [f64.nan] <> length [f64.two; f64.two].
Proof. repeat split; try reflexivity. discriminate. Qed.

(** ** The outer iteration *)

Lemma bind_returns {A B : Type} (m : M A) (k : A -> M B) (w w' : world)
  (b : B) :
  bind m k w = Returns b w' ->
  exists a w1, m w = Returns a w1 /\ k a w1 = Returns b w'.
Proof.
  unfold bind. destruct (m w) as [a w1 | msg w1]; [eauto | discriminate].
Qed.

Lemma lift_returns {A : Type} (e : exc A) (w w' : world) (a : A) :
  lift e w = Returns a w' -> e = Val a /\ w' = w.
Proof.
  unfold lift. destruct e as [a' | msg]; [| discriminate].
  intros H; injection H as -> ->. auto.
Qed.

Lemma sum_bool_le (l : list bool) : arma.sum_bool l <= length l.
Proof. unfold arma.sum_bool. apply filter_length_le. Qed.

Lemma sum_bool_all (l : list bool) :
  (arma.sum_bool l =? length l) = forallb (fun b => b) l.
Proof.
  induction l as [| b l IH]; [reflexivity|].
  pose proof (sum_bool_le l) as Hle.
  unfold arma.sum_bool in *. destruct b; cbn.
  - exact IH.
  - apply Nat.eqb_neq. lia.
Qed.

Lemma forallb_of_map {A B : Type} (f : B -> bool) (g : A -> B) (l : list A) :
  forallb f (map g l) = forallb (fun x => f (g x)) l.
Proof.
  induction l as [| x l IH]; [reflexivity|]. cbn. rewrite IH. reflexivity.
Qed.

Section OuterFacts.

Variable pow : double -> double -> double.
Variable solve : mat -> arma.colvec -> exc arma.colvec.
Variable BFGS :
  rowvec -> rowvec -> mat -> rowvec -> rowvec -> bool -> double -> bool ->
  exc mat.
Context {T : Type}.
Variable model_ : model.t.
Variable parameterLabels : stringVector.
Variable smoothPenalty_ : smoothPenalty T.
Variable tuningParameters : T.
Variable control_ : controlBFGS.t.

Hypothesis criterion :
  controlBFGS.convergenceCriterion control_ = gradients_.

Local Abbreviation body :=
  (outer_body pow solve BFGS model_ parameterLabels smoothPenalty_
     tuningParameters control_).
Local Abbreviation loop :=
  (outer_loop pow solve BFGS model_ parameterLabels smoothPenalty_
     tuningParameters control_).
Local Abbreviation below := (spec_gradients_below control_).
Local Abbreviation start :=
  (iteration_start pow solve BFGS model_ parameterLabels smoothPenalty_
     tuningParameters control_).

(** The check of the criterion [gradients_]. *)
Lemma check_gradients (outer_iteration : Z) (direction fits g : rowvec)
  (H : mat) (w : world) :
  check_convergence pow control_ outer_iteration direction fits g H w
  = Returns (below g) w.
Proof.
  unfold check_convergence. rewrite criterion. cbn.
  unfold arma.n_elem, arma.lt_scalar, arma.abs, spec_gradients_below.
  replace (length g)
    with (length (map (fun x => (x <? controlBFGS.breakOuter control_)%f64)
                    (map f64.abs g)))
    by (rewrite !length_map; reflexivity).
  rewrite sum_bool_all, !forallb_of_map. reflexivity.
Qed.

(** An outer iteration ends with [break] exactly when every component of
    the new [|gradient_k|] is below [breakOuter], and records the outcome
    in its flag. *)
Lemma body_flag (i : Z) (st st' : outer.state) (fl : flow) (w w' : world) :
  body i st w = Returns (st', fl) w' ->
  outer.breakOuter st' = below (outer.gradients_k st')
  /\ (fl = Break <-> outer.breakOuter st' = true).
Proof.
  unfold outer_body. intros H.
  apply bind_returns in H as (g0 & w1 & _ & H).
  apply bind_returns in H as (x & w2 & _ & H).
  apply bind_returns in H as (p & w3 & _ & H).
  apply bind_returns in H as (g & w4 & _ & H).
  apply bind_returns in H as (f & w5 & _ & H).
  apply bind_returns in H as (fits & w6 & _ & H).
  apply bind_returns in H as (u & w7 & _ & H).
  apply bind_returns in H as (Hk & w8 & _ & H).
  apply bind_returns in H as (flag & w9 & Hc & H).
  rewrite check_gradients in Hc. injection Hc as <- <-.
  destruct (below g) eqn:Hb; unfold ret in H; injection H as <- <- <-;
    cbn [outer.breakOuter outer.gradients_k];
    rewrite Hb; split; try reflexivity; split; congruence.
Qed.

(** The parameters of an outer iteration are the ones the line search
    returned for the direction of this iteration. *)
Lemma body_takes_line_search_result (i : Z) (st st' : outer.state)
  (fl : flow) (w w' : world) :
  body i st w = Returns (st', fl) w' ->
  exists (g : rowvec) (x : arma.colvec) (w1 : world),
    smooth_gradients model_ smoothPenalty_ (outer.parameters_kMinus1 st)
      parameterLabels tuningParameters = Val g
    /\ solve (outer.Hessian_kMinus1 st) (arma.trans g) = Val x
    /\ bfgsLineSearch pow model_ smoothPenalty_ (outer.parameters_kMinus1 st)
         parameterLabels (arma.neg (arma.trans_col x)) (outer.fit_kMinus1 st)
         g (outer.Hessian_kMinus1 st) tuningParameters
         (controlBFGS.stepSize control_) (controlBFGS.sigma control_)
         (controlBFGS.gamma control_) (controlBFGS.maxIterLine control_)
         (controlBFGS.verbose control_) w
       = Returns (outer.parameters_k st') w1.
Proof.
  unfold outer_body. intros H.
  apply bind_returns in H as (g0 & w1 & Hg0 & H).
  apply lift_returns in Hg0 as [Hg0 ->].
  apply bind_returns in H as (x & w2 & Hx & H).
  apply lift_returns in Hx as [Hx ->].
  apply bind_returns in H as (p & w3 & Hp & H).
  apply bind_returns in H as (g & w4 & _ & H).
  apply bind_returns in H as (f & w5 & _ & H).
  apply bind_returns in H as (fits & w6 & _ & H).
  apply bind_returns in H as (u & w7 & _ & H).
  apply bind_returns in H as (Hk & w8 & _ & H).
  apply bind_returns in H as (flag & w9 & _ & H).
  exists g0, x, w3. split; [exact Hg0|]. split; [exact Hx|].
  destruct flag; unfold ret in H; injection H as <- _ _; exact Hp.
Qed.

Section FromStart.

Variable st0 : outer.state.
Variable w0 : world.

Lemma start_next (n : nat) (st st' : outer.state) (w w' : world) :
  start st0 w0 n = Some (st, w) ->
  body (Z.of_nat n) st w = Returns (st', Continue) w' ->
  start st0 w0 (S n) = Some (st', w').
Proof. intros Hs Hb. cbn [iteration_start]. rewrite Hs, Hb. reflexivity. Qed.

(** What the loop returns, by its flag: after a [break], the iteration
    that set the flag; without one, no iteration met the criterion. *)
Lemma loop_gradients (todo n : nat) (st stf : outer.state) (w wf : world) :
  start st0 w0 n = Some (st, w) ->
  outer.breakOuter st = false ->
  loop todo (Z.of_nat n) st w = Returns stf wf ->
  if outer.breakOuter stf then
    exists m stm wm,
      n <= m < n + todo
      /\ start st0 w0 m = Some (stm, wm)
      /\ body (Z.of_nat m) stm wm = Returns (stf, Break) wf
      /\ below (outer.gradients_k stf) = true
  else
    forall m stm wm st' fl wm',
      n <= m < n + todo ->
      start st0 w0 m = Some (stm, wm) ->
      body (Z.of_nat m) stm wm = Returns (st', fl) wm' ->
      below (outer.gradients_k st') = false.
Proof.
  revert n st w; induction todo as [| todo IH]; intros n st w Hs Hflag Hl.
  - cbn in Hl. unfold ret in Hl. injection Hl as <- <-.
    rewrite Hflag. intros; lia.
  - cbn [outer_loop] in Hl.
    apply bind_returns in Hl as ([st1 fl] & w1 & Hb & Hl).
    destruct (body_flag _ _ _ _ _ _ Hb) as [Hf Hbr].
    destruct fl.
    + assert (Hf1 : outer.breakOuter st1 = false).
      { destruct (outer.breakOuter st1); [| reflexivity].
        destruct Hbr as [_ Hbr]. discriminate (Hbr eq_refl). }
      replace (Z.of_nat n + 1)%Z with (Z.of_nat (S n)) in Hl by lia.
      pose proof (IH (S n) st1 w1 (start_next n st st1 w w1 Hs Hb) Hf1 Hl)
        as HI.
      destruct (outer.breakOuter stf).
      * destruct HI as (m & stm & wm & Hm & HI). exists m, stm, wm.
        split; [lia | exact HI].
      * intros m stm wm st' fl wm' Hm Hsm Hbm.
        destruct (Nat.eq_dec m n) as [-> | Hne].
        -- rewrite Hs in Hsm. injection Hsm as <- <-.
           rewrite Hb in Hbm. injection Hbm as <- _ _.
           rewrite <- Hf. exact Hf1.
        -- apply (HI m stm wm st' fl wm'); (lia || assumption).
    + unfold ret in Hl. injection Hl as <- <-.
      destruct Hbr as [Hbr _]. rewrite (Hbr eq_refl).
      exists n, st, w. repeat split; try lia; try assumption.
      rewrite <- Hf. apply Hbr. reflexivity.
Qed.

End FromStart.

(** C9: with the criterion [gradients_], a call of [bfgsOptim] that
    returns has the convergence flag true exactly when, at an outer
    iteration it reaches before [maxIterOut], every component of
    [|gradient_k|] is below [breakOuter]; the loop then stops at that
    iteration and its parameters are returned.  When the flag is false, the
    last thing the call does is to warn that the outer iterations did not
    converge. *)
Theorem gradients_criterion (startingValuesRcpp : numericVector)
  (st0 : outer.state) (w w0 w' : world) (res : fitResults.t) :
  parameterLabels = names startingValuesRcpp ->
  outer_init model_ startingValuesRcpp smoothPenalty_ tuningParameters
    control_ w = Returns st0 w0 ->
  bfgsOptim pow solve BFGS model_ startingValuesRcpp smoothPenalty_
    tuningParameters control_ w = Returns res w' ->
  (fitResults.convergence res = true <->
   exists (n : nat) (st st' : outer.state) (fl : flow) (wn wn' : world),
     (Z.of_nat n < controlBFGS.maxIterOut control_)%Z
     /\ start st0 w0 n = Some (st, wn)
     /\ body (Z.of_nat n) st wn = Returns (st', fl) wn'
     /\ below (outer.gradients_k st') = true)
  /\ (fitResults.convergence res = true ->
      exists (n : nat) (st st' : outer.state) (wn : world),
        (Z.of_nat n < controlBFGS.maxIterOut control_)%Z
        /\ start st0 w0 n = Some (st, wn)
        /\ body (Z.of_nat n) st wn = Returns (st', Break) w'
        /\ fitResults.parameterValues res = outer.parameters_k st')
  /\ (fitResults.convergence res = false ->
      exists wf,
        events w'
        = events wf ++ [Warning "Outer iterations did not converge"]).
Proof.
  intros Hlabels Hinit Hopt.
  assert (Hflag0 : outer.breakOuter st0 = false).
  { unfold outer_init in Hinit.
    apply bind_returns in Hinit as (u & w1 & _ & H).
    apply bind_returns in H as (f1 & w2 & _ & H).
    apply bind_returns in H as (f2 & w3 & _ & H).
    apply bind_returns in H as (fs & w4 & _ & H).
    apply bind_returns in H as (fs' & w5 & _ & H).
    apply bind_returns in H as (g1 & w6 & _ & H).
    apply bind_returns in H as (g2 & w7 & _ & H).
    unfold ret in H. injection H as <- _. reflexivity. }
  unfold bfgsOptim in Hopt.
  apply bind_returns in Hopt as (st0' & w0' & Hinit' & Hopt).
  rewrite Hinit in Hinit'. injection Hinit' as <- <-.
  apply bind_returns in Hopt as (stf & wf & Hloop & Hopt).
  apply bind_returns in Hopt as (u & wf' & Hwarn & Hopt).
  unfold ret in Hopt. injection Hopt as <- <-. cbn.
  rewrite <- Hlabels in Hloop.
  pose proof (loop_gradients st0 w0
                (Z.to_nat (controlBFGS.maxIterOut control_)) 0 st0 stf w0 wf
                eq_refl Hflag0 Hloop) as HL.
  destruct (outer.breakOuter stf) eqn:Hf.
  - destruct HL as (m & stm & wm & Hm & Hsm & Hbm & Hbel).
    cbn in Hwarn. unfold ret in Hwarn. injection Hwarn as _ <-.
    repeat split.
    + intros _. exists m, stm, stf, Break, wm, wf.
      repeat split; (lia || assumption).
    + intros _. exists m, stm, stf, wm.
      repeat split; (lia || assumption).
    + discriminate.
  - cbn in Hwarn. unfold warn, emit in Hwarn. injection Hwarn as _ <-.
    repeat split.
    + discriminate.
    + intros (n & st & st' & fl & wn & wn' & Hn & Hsn & Hbn & Hbel).
      rewrite (HL n st wn st' fl wn' ltac:(lia) Hsn Hbn) in Hbel.
      discriminate.
    + discriminate.
    + intros _. exists wf. reflexivity.
Qed.

End OuterFacts.

Lemma gradients_criterion_witness :
  exists res w',
    square_optim (constant_source half) = Returns res w'
    /\ fitResults.convergence res = true
    /\ fitResults.parameterValues res = [f64.zero]
    /\ events w' = []
    /\ exists (n : nat) (st st' : outer.state) (fl : flow) (wn wn' : world),
        (Z.of_nat n < 50)%Z
        /\ outer_body pow_small solve_1x1 BFGS_keep square_model ["x"%string]
             (penaltyRidgeGlmnet pow_small) ridge_off square_control
             (Z.of_nat n) st wn
           = Returns (st', fl) wn'
        /\ spec_gradients_below square_control (outer.gradients_k st') = true.
Proof.
  eexists _, _.
  split; [vm_compute; reflexivity|].
  pose proof (fun st0 w0 =>
                gradients_criterion pow_small solve_1x1 BFGS_keep
                  square_model ["x"%string] (penaltyRidgeGlmnet pow_small)
                  ridge_off square_control eq_refl square_start st0
                  (constant_source half) w0) as G.
  eassert (E0 : outer_init square_model square_start
                  (penaltyRidgeGlmnet pow_small) ridge_off square_control
                  (constant_source half) = Returns _ _)
    by (vm_compute; reflexivity).
  eassert (E : square_optim (constant_source half) = Returns _ _)
    by (vm_compute; reflexivity).
  specialize (G _ _ _ _ eq_refl E0 E).
  destruct G as ([Hto _] & _ & _).
  split; [reflexivity|].
  split; [reflexivity|]. split; [reflexivity|].
  destruct (Hto eq_refl) as (n & st & st' & fl & wn & wn' & Hn & _ & Hb & Hg).
  exists n, st, st', fl, wn, wn'. auto.
Defined.
